(** * GraalFaaS Python handler specimens

    A shallow embedding of the two example functions
    [examples/python/handler.py] and [examples/python/handler-w-deps.py]
    over a small model of the Python object store, together with the
    properties the specification states about them.

    Python values are modelled as the interpreter has them: immutable
    scalars are immediate, lists and dicts are objects in a store and are
    reached through references, so that aliasing and in-place mutation are
    expressible.  A handler is a computation over that store which may
    return, raise, or (through a dependency that never returns) produce no
    outcome at all.  Two limits of the interpreter are part of the model,
    because the handlers can run into them: the digit limit of the
    integer-to-text conversion and the recursion limit met when nested
    containers are rendered.  Memory exhaustion is not modelled. *)

From Stdlib Require Import ZArith String Ascii List DecimalString.
From Stdlib Require Import Floats.SpecFloat.
From stdpp Require Import base option list gmap strings.

Set Warnings "-register-all".

Local Open Scope Z_scope.
Local Open Scope stdpp_scope.

(** ** Runtime primitives

    Two text renderings belong to the language runtime and are left
    abstract: the shortest round-trip rendering of a float and the quoted,
    escaped rendering of a string (which consults the Unicode tables).
    The handlers only ever concatenate their results.

    Two limits are settings of the running interpreter:
    [int_max_str_digits] is the most digits an [int] may have for its
    conversion to text to succeed ([0] switches the limit off; the default
    is 4300), and [repr_depth_limit] is how many containers deep a
    rendering started in the handler's frame can descend before the
    recursion limit is hit. *)

Class Runtime := {
  repr_float : spec_float → string;
  repr_str : string → string;
  int_max_str_digits : nat;
  repr_depth_limit : nat
}.

(** ** Values, objects and the store *)

Definition loc := positive.

(** A Python [str] is kept as its UTF-8 text; an [int] is unbounded. *)
Inductive val :=
| VNone
| VBool (b : bool)
| VInt (z : Z)
| VFloat (f : spec_float)
| VStr (s : string)
| VRef (l : loc).

(** Mutable containers.  A dict keeps its entries in insertion order, which
    its rendering shows; keys are strings, as in every decoded wire
    mapping and in the literal the handlers build. *)
Inductive obj :=
| OList (items : list val)
| ODict (entries : list (string * val)).

Abbreviation heap := (gmap loc obj).

(** The world threaded through an invocation: the object store, and a ghost
    trace of the arguments with which the preloaded dependency was called. *)
Record world := World {
  w_heap : heap;
  w_calls : list val
}.

(** ** Exceptions and outcomes *)

Inductive exn :=
| AttributeError (msg : string)
| TypeError (msg : string)
| ValueError (msg : string)
| RecursionError (msg : string)
| OtherException (cls msg : string)
| BaseExceptionOnly (cls : string).

(** [except Exception] catches every class deriving from [Exception]; it
    lets [KeyboardInterrupt], [SystemExit] and the like through. *)
Definition is_Exception (e : exn) : bool :=
  match e with
  | BaseExceptionOnly _ => false
  | _ => true
  end.

Inductive outcome (A : Type) :=
| Ret (a : A)
| Raise (e : exn).
Arguments Ret {A} a.
Arguments Raise {A} e.

(** A computation maps a world to an outcome and a final world, or to
    [None] when there is no outcome: a dependency that never returns, or a
    store no execution can reach (a dangling reference). *)
Definition M (A : Type) : Type := world → option (outcome A * world).

Global Instance M_ret : MRet M := λ A a w, Some (Ret a, w).

Global Instance M_bind : MBind M := λ A B k m w,
  match m w with
  | Some (Ret a, w') => k a w'
  | Some (Raise e, w') => Some (Raise e, w')
  | None => None
  end.

Definition raise {A} (e : exn) : M A := λ w, Some (Raise e, w).

(** [try: body / except Exception: fallback]. *)
Definition try_except {A} (body : M A) (fallback : exn → M A) : M A := λ w,
  match body w with
  | Some (Raise e, w') =>
      if is_Exception e then fallback e w' else Some (Raise e, w')
  | r => r
  end.

(** A preloaded dependency function: it sees and may change the store, may
    raise, and may fail to return. *)
Definition dep := val → heap → option (outcome val * heap).

(** Calling the dependency records the argument in the ghost trace. *)
Definition call_dep (g : dep) (arg : val) : M val := λ w,
  match g arg (w_heap w) with
  | Some (o, h') => Some (o, World h' (w_calls w ++ [arg]))
  | None => None
  end.

(** ** Built-in operations the handlers use *)

Definition dict_lookup (key : string) : list (string * val) → option val :=
  fix go entries :=
    match entries with
    | [] => None
    | (k, v) :: rest => if String.eqb k key then Some v else go rest
    end.

Definition type_name (h : heap) (v : val) : option string :=
  match v with
  | VNone => Some "NoneType"
  | VBool _ => Some "bool"
  | VInt _ => Some "int"
  | VFloat _ => Some "float"
  | VStr _ => Some "str"
  | VRef l =>
      match h !! l with
      | Some (OList _) => Some "list"
      | Some (ODict _) => Some "dict"
      | None => None
      end
  end.

(** [isinstance(v, dict)]. *)
Definition isinstance_dict (v : val) : M bool := λ w,
  match type_name (w_heap w) v with
  | Some t => Some (Ret (String.eqb t "dict"), w)
  | None => None
  end.

(** [recv.get(key, default)]: the attribute [get] exists on dicts only;
    on a dict it returns the stored value, or [default] when the key is
    absent. *)
Definition method_get (recv : val) (key : string) (default : val) : M val := λ w,
  match recv with
  | VRef l =>
      match w_heap w !! l with
      | Some (ODict entries) =>
          Some (Ret (match dict_lookup key entries with
                     | Some v => v
                     | None => default
                     end), w)
      | Some (OList _) =>
          Some (Raise (AttributeError "'list' object has no attribute 'get'"), w)
      | None => None
      end
  | _ =>
      match type_name (w_heap w) recv with
      | Some t =>
          Some (Raise (AttributeError
                         ("'" +:+ t +:+ "' object has no attribute 'get'")), w)
      | None => None
      end
  end.

(** A dict display [{k: v, ...}] allocates a new object. *)
Definition new_dict (entries : list (string * val)) : M val := λ w,
  let l := fresh (dom (w_heap w)) in
  Some (Ret (VRef l), World (<[l := ODict entries]> (w_heap w)) (w_calls w)).

Definition repr_int (z : Z) : string := NilZero.string_of_int (Z.to_int z).

(** The number of decimal digits of an [int], its sign aside. *)
Definition int_digits (z : Z) : nat := String.length (repr_int (Z.abs z)).

(** Rendering the elements of a container from left to right: the first
    element that cannot be rendered ends the rendering with its error. *)
Fixpoint render_all {A} (f : A → option (outcome string)) (xs : list A)
  : option (outcome (list string)) :=
  match xs with
  | [] => Some (Ret [])
  | x :: rest =>
      match f x with
      | Some (Ret s) =>
          match render_all f rest with
          | Some (Ret ss) => Some (Ret (s :: ss))
          | r => r
          end
      | Some (Raise e) => Some (Raise e)
      | None => None
      end
  end.

Section Rendering.
Context `{Runtime}.

(** [str] and [repr] of an [int]: a [ValueError] when the limit is on and
    the number has more digits than it allows. *)
Definition str_int (z : Z) : outcome string :=
  if decide (0 < int_max_str_digits ∧ int_max_str_digits < int_digits z)%nat
  then Raise (ValueError "Exceeds the limit for integer string conversion")
  else Ret (repr_int z).

(** [repr] over the store, with [depth] containers still allowed below.
    Entering a container when none is allowed is a [RecursionError].
    [seen] is the chain of containers whose rendering is in progress:
    meeting one of them again prints the ellipsis form instead of
    descending, as the interpreter does. *)
Fixpoint repr_in (depth : nat) (h : heap) (seen : list loc) (v : val)
  : option (outcome string) :=
  match v with
  | VNone => Some (Ret "None")
  | VBool b => Some (Ret (if b then "True" else "False"))
  | VInt z => Some (str_int z)
  | VFloat f => Some (Ret (repr_float f))
  | VStr s => Some (Ret (repr_str s))
  | VRef l =>
      match h !! l with
      | None => None
      | Some o =>
          match depth with
          | O =>
              Some (Raise (RecursionError
                             "maximum recursion depth exceeded while getting the repr of an object"))
          | S depth' =>
              match o with
              | OList items =>
                  if decide (l ∈ seen) then Some (Ret "[...]")
                  else
                    match render_all (repr_in depth' h (l :: seen)) items with
                    | Some (Ret rs) =>
                        Some (Ret ("[" +:+ String.concat ", " rs +:+ "]"))
                    | Some (Raise e) => Some (Raise e)
                    | None => None
                    end
              | ODict entries =>
                  if decide (l ∈ seen) then Some (Ret "{...}")
                  else
                    match render_all
                            (λ kv : string * val,
                               match repr_in depth' h (l :: seen) kv.2 with
                               | Some (Ret r) =>
                                   Some (Ret (repr_str kv.1 +:+ ": " +:+ r))
                               | r => r
                               end) entries with
                    | Some (Ret rs) =>
                        Some (Ret ("{" +:+ String.concat ", " rs +:+ "}"))
                    | Some (Raise e) => Some (Raise e)
                    | None => None
                    end
              end
          end
      end
  end.

Definition py_repr (h : heap) (v : val) : option (outcome string) :=
  repr_in repr_depth_limit h [] v.

(** [str(v)], which is what an f-string field without a conversion or
    format spec yields for these types: a string is itself, anything else
    is its [repr]. *)
Definition py_str (h : heap) (v : val) : option (outcome string) :=
  match v with
  | VStr s => Some (Ret s)
  | _ => py_repr h v
  end.

(** The replacement field [{v}] of an f-string: the text of [v], or the
    error its rendering raises. *)
Definition format_value (v : val) : M string := λ w,
  match py_str (w_heap w) v with
  | Some (Ret s) => Some (Ret s, w)
  | Some (Raise e) => Some (Raise e, w)
  | None => None
  end.

(** ** The two handlers *)

(** [examples/python/handler.py] *)
Definition handler (event : val) : M val :=
  name ← try_except
           (is_dict ← isinstance_dict event;
            if is_dict : bool
            then method_get event "name" (VStr "World")
            else mret (VStr "World"))
           (λ _, mret (VStr "World"));
  rendered ← format_value name;
  new_dict [("message", VStr ("Hello, " +:+ rendered +:+ "!"))].

(** [examples/python/handler-w-deps.py]; [greet] is the function imported
    from the preloaded [greeter] module. *)
Definition handler_w_deps (greet : dep) (event : val) : M val :=
  name ← try_except
           (is_dict ← isinstance_dict event;
            if is_dict : bool
            then method_get event "name" VNone
            else mret VNone)
           (λ _, mret VNone);
  greeting ← call_dep greet name;
  new_dict [("message", greeting)].

End Rendering.

(** ** Wire values

    A decoded wire payload is a finite tree.  Objects keep their members in
    order, as the decoded dict does. *)

Inductive json :=
| JNull
| JBool (b : bool)
| JInt (z : Z)
| JFloat (f : spec_float)
| JStr (s : string)
| JArr (items : list json)
| JObj (members : list (string * json)).

(** [represents h j v]: in store [h], the value [v] is the Python value
    decoded from [j]. *)
Inductive represents (h : heap) : json → val → Prop :=
| rep_null : represents h JNull VNone
| rep_bool b : represents h (JBool b) (VBool b)
| rep_int z : represents h (JInt z) (VInt z)
| rep_float f : represents h (JFloat f) (VFloat f)
| rep_str s : represents h (JStr s) (VStr s)
| rep_arr l items js :
    h !! l = Some (OList items) →
    Forall2 (represents h) js items →
    represents h (JArr js) (VRef l)
| rep_obj l entries ms :
    h !! l = Some (ODict entries) →
    Forall2 (λ m e, m.1 = e.1 ∧ represents h m.2 e.2) ms entries →
    represents h (JObj ms) (VRef l).

Definition is_mapping (j : json) : bool :=
  match j with
  | JObj _ => true
  | _ => false
  end.

Definition json_field (key : string) : list (string * json) → option json :=
  fix go ms :=
    match ms with
    | [] => None
    | (k, j) :: rest => if String.eqb k key then Some j else go rest
    end.

Fixpoint json_size (j : json) : nat :=
  match j with
  | JArr js => S (list_sum (map json_size js))
  | JObj ms => S (list_sum (map (λ m, json_size m.2) ms))
  | _ => 1%nat
  end.

(** The first error among rendered elements, or all their texts. *)
Fixpoint collect (rs : list (outcome string)) : outcome (list string) :=
  match rs with
  | [] => Ret []
  | Ret s :: rest =>
      match collect rest with
      | Ret ss => Ret (s :: ss)
      | Raise e => Raise e
      end
  | Raise e :: _ => Raise e
  end.

Section WireRendering.
Context `{Runtime}.

(** What [repr] gives for the Python value decoded from a wire value, with
    [depth] containers still allowed below. *)
Fixpoint json_repr (j : json) (depth : nat) : outcome string :=
  match j with
  | JNull => Ret "None"
  | JBool b => Ret (if b then "True" else "False")
  | JInt z => str_int z
  | JFloat f => Ret (repr_float f)
  | JStr s => Ret (repr_str s)
  | JArr js =>
      match depth with
      | O =>
          Raise (RecursionError
                   "maximum recursion depth exceeded while getting the repr of an object")
      | S depth' =>
          match collect (map (λ j, json_repr j depth') js) with
          | Ret rs => Ret ("[" +:+ String.concat ", " rs +:+ "]")
          | Raise e => Raise e
          end
      end
  | JObj ms =>
      match depth with
      | O =>
          Raise (RecursionError
                   "maximum recursion depth exceeded while getting the repr of an object")
      | S depth' =>
          match collect
                  (map (λ m : string * json,
                          match json_repr m.2 depth' with
                          | Ret r => Ret (repr_str m.1 +:+ ": " +:+ r)
                          | Raise e => Raise e
                          end) ms) with
          | Ret rs => Ret ("{" +:+ String.concat ", " rs +:+ "}")
          | Raise e => Raise e
          end
      end
  end.

Definition json_str (j : json) : outcome string :=
  match j with
  | JStr s => Ret s
  | _ => json_repr j repr_depth_limit
  end.

(** The name [handler.py] greets for a given wire event. *)
Definition greeted_name (j : json) : json :=
  match j with
  | JObj ms => default (JStr "World") (json_field "name" ms)
  | _ => JStr "World"
  end.

(** The name [handler-w-deps.py] hands to the dependency. *)
Definition passed_name (j : json) : json :=
  match j with
  | JObj ms => default JNull (json_field "name" ms)
  | _ => JNull
  end.

End WireRendering.

(** A value of the store that is the Python form of some wire value: what
    the Event Adapter hands to a handler. *)
Definition wire_value (h : heap) (v : val) : Prop :=
  ∃ j, represents h j v.

(** Modelled from the spec: the Result Serializer's accepted shapes (§4.5),
    "values composed recursively of mappings (string keys), ordered
    sequences, strings, numbers, booleans, and null".  The serializer is
    not among the sources; a returned value has an accepted shape when it
    is the Python form of some wire value. *)
Definition accepted_shape (h : heap) (v : val) : Prop :=
  wire_value h v.

(** ** Source units

    What loading a source unit leaves in its module namespace: names bound
    by [import] and functions bound by [def]. *)

Record pyfunction := PyFunction {
  fn_params : list string;
  fn_body : list val → M val
}.

(** A call with positional arguments binds them to the parameters one to
    one; any other number is a [TypeError] raised before the body runs. *)
Definition call_function (f : pyfunction) (args : list val) : M val :=
  if decide (length args = length (fn_params f))
  then fn_body f args
  else raise (TypeError "wrong number of positional arguments").

Inductive binding :=
| Imported (module : string) (g : dep)
| Defined (f : pyfunction).

Definition namespace := list (string * binding).

Definition entry_points (ns : namespace) : list (string * pyfunction) :=
  omap (λ b, match b.2 with
             | Defined f => Some (b.1, f)
             | Imported _ _ => None
             end) ns.

Section Units.
Context `{Runtime}.

Definition handler_py : namespace :=
  [("handler",
    Defined (PyFunction ["event"]
               (λ args, match args with
                        | [event] => handler event
                        | _ => raise (TypeError "unbound parameter")
                        end)))].

Definition handler_w_deps_py (greet : dep) : namespace :=
  [("greet", Imported "greeter" greet);
   ("handler",
    Defined (PyFunction ["event"]
               (λ args, match args with
                        | [event] => handler_w_deps greet event
                        | _ => raise (TypeError "unbound parameter")
                        end)))].

(** Running a list of invocations one after the other on the same loaded
    unit, each on the world its predecessor left. *)
Fixpoint invoke_all (f : val → M val) (events : list val) (w : world)
  : option world :=
  match events with
  | [] => Some w
  | e :: rest =>
      match f e w with
      | Some (_, w') => invoke_all f rest w'
      | None => None
      end
  end.

End Units.

(** ** Specification vocabulary *)

(** The value both handlers bind to [name]: what is stored under ["name"]
    when the event is a dict holding that key, and the fallback
    otherwise. *)
Definition name_of (h : heap) (fallback : val) (event : val) : val :=
  match event with
  | VRef l =>
      match h !! l with
      | Some (ODict entries) => default fallback (dict_lookup "name" entries)
      | _ => fallback
      end
  | _ => fallback
  end.

(** An invocation returns normally and its result is the Python form of
    the wire value [j]. *)
Definition returns (r : option (outcome val * world)) (j : json) : Prop :=
  ∃ v w', r = Some (Ret v, w') ∧ represents (w_heap w') j v.

(** The world an invocation leaves when it returns the one-entry dict
    [{"message": v}], allocated in store [h], after [calls]. *)
Definition message_reply (h : heap) (calls : list val) (v : val)
  : option (outcome val * world) :=
  let l := fresh (dom h) in
  Some (Ret (VRef l), World (<[l := ODict [("message", v)]]> h) calls).

Definition message (text : string) : json := JObj [("message", JStr text)].

(** A dependency that behaves as a fixed function [g] of the wire value it
    is given: it returns, its result is the Python form of [g j], and it
    leaves every existing object as it was. *)
Definition pure_dep (greet : dep) (g : json → json) : Prop :=
  ∀ h j v, represents h j v →
    ∃ r h', greet v h = Some (Ret r, h') ∧ h ⊆ h' ∧ represents h' (g j) r.

(** A dependency whose results are strings. *)
Definition returns_str (greet : dep) : Prop :=
  ∀ arg h, ∃ s h', greet arg h = Some (Ret (VStr s), h').

Definition children (o : obj) : list val :=
  match o with
  | OList items => items
  | ODict entries => entries.*2
  end.

(** The objects a value gives access to. *)
Inductive reachable (h : heap) : val → loc → Prop :=
| reach_ref l : reachable h (VRef l) l
| reach_child l o v l' :
    h !! l = Some o → v ∈ children o → reachable h v l' →
    reachable h (VRef l) l'.

(** A dependency that writes only to objects it can reach from its
    argument: every other existing object is as it was when it is done. *)
Definition writes_within (greet : dep) : Prop :=
  ∀ arg h o h' l,
    greet arg h = Some (o, h') →
    is_Some (h !! l) → ¬ reachable h arg l →
    h' !! l = h !! l.

(** What [handler.py] answers to a wire event: the greeting as a wire
    value, or the error that rendering the name raises. *)
Definition handler_reply `{Runtime} (j : json) : outcome json :=
  match json_str (greeted_name j) with
  | Ret s => Ret (message ("Hello, " +:+ s +:+ "!"))
  | Raise e => Raise e
  end.

(** What [handler-w-deps.py] answers with a greeter that is the function
    [g]. *)
Definition handler_w_deps_reply (g : json → json) (j : json) : json :=
  JObj [("message", g (passed_name j))].

(** The outcome [r] of an invocation started in store [h] is the answer
    [a]: a return of the Python form of the wire value, or a raise of the
    same exception; either way the store it leaves extends [h], so that
    no object that existed before is different after. *)
Definition answers (h : heap) (r : option (outcome val * world))
    (a : outcome json) : Prop :=
  match a with
  | Ret j =>
      ∃ v w', r = Some (Ret v, w')
              ∧ h ⊆ w_heap w' ∧ represents (w_heap w') j v
  | Raise e =>
      ∃ w', r = Some (Raise e, w') ∧ h ⊆ w_heap w'
  end.

(** [function_of_event f F]: in every world, on every wire event, [f] has
    an outcome, and it is the answer [F j], where [j] is the wire value of
    the event. *)
Definition function_of_event (f : val → M val) (F : json → outcome json)
  : Prop :=
  ∀ w j e,
    represents (w_heap w) j e →
    answers (w_heap w) (f e w) (F j).

(** [repeatable f F]: an invocation of [f] on an event, any run of further
    invocations, and then an invocation on an equal event: the first and
    the last have the same answer [F j], a function of the event alone,
    and each world extends the one before it. *)
Definition repeatable (f : val → M val) (F : json → outcome json) : Prop :=
  ∀ w e1 between e2 j,
    represents (w_heap w) j e1 →
    represents (w_heap w) j e2 →
    Forall (wire_value (w_heap w)) between →
    ∃ o1 w1 w2,
      f e1 w = Some (o1, w1)
      ∧ answers (w_heap w) (f e1 w) (F j)
      ∧ invoke_all f between w1 = Some w2
      ∧ w_heap w1 ⊆ w_heap w2
      ∧ answers (w_heap w2) (f e2 w2) (F j).

(** ** Worked instances *)

(** Closed examples fix the runtime: the default digit limit, a recursion
    budget of 900 containers, and stand-ins for the two text renderings;
    none of the examples renders a float or a string that needs
    escaping. *)
Definition example_runtime : Runtime :=
  {| repr_float := λ _, "0.0";
     repr_str := λ s, "'" +:+ s +:+ "'";
     int_max_str_digits := 4300;
     repr_depth_limit := 900 |}.

(** A runtime that allows one container below the handler's frame. *)
Definition shallow_runtime : Runtime :=
  {| repr_float := λ _, "0.0";
     repr_str := λ s, "'" +:+ s +:+ "'";
     int_max_str_digits := 4300;
     repr_depth_limit := 1 |}.

(** A greeter in the shape the specification describes: ["Hi, <name>"],
    with a default name. *)
Definition greet_hi : dep := λ name h,
  match name with
  | VStr s => Some (Ret (VStr ("Hi, " +:+ s)), h)
  | _ => Some (Ret (VStr "Hi, World"), h)
  end.

Definition greet_hi_wire (j : json) : json :=
  match j with
  | JStr s => JStr ("Hi, " +:+ s)
  | _ => JStr "Hi, World"
  end.

(** A greeter that raises. *)
Definition greet_failing : dep := λ _ h,
  Some (Raise (OtherException "RuntimeError" "greeter unavailable"), h).

(** The greeter [return "Hi, " + name]: concatenation to a string is
    defined for strings only. *)
Definition greet_concat : dep := λ name h,
  match name with
  | VStr s => Some (Ret (VStr ("Hi, " +:+ s)), h)
  | _ => Some (Raise (TypeError "can only concatenate str to str"), h)
  end.

(** A greeter that empties the dict at location 1 before it answers. *)
Definition greet_clobber : dep := λ _ h,
  Some (Ret (VStr "Hi"), <[1%positive := ODict []]> h).

(** An integer of 4301 digits, and the event [{"name": 10 ** 4300}]. *)
Definition big_int : Z := 10 ^ 4300.

Definition big_int_world : world :=
  World {[ 1%positive := ODict [("name", VInt big_int)] ]} [].

Definition ada_world : world :=
  World {[ 1%positive := ODict [("name", VStr "Ada")] ]} [].

Definition ada_event : val := VRef 1%positive.

Definition null_name_world : world :=
  World {[ 1%positive := ODict [("name", VNone)] ]} [].

Definition empty_world : world := World ∅ [].

(** An event whose name is a nested container:
    [{"name": [0, "a", {"k": None}, True], "x": -5}]. *)
Definition nested_world : world :=
  World {[ 1%positive := ODict [("name", VRef 2%positive); ("x", VInt (-5))];
           2%positive := OList [VInt 0; VStr "a"; VRef 3%positive; VBool true];
           3%positive := ODict [("k", VNone)] ]} [].

(** A store no wire payload decodes to: the list at 2 contains itself and
    the dict that holds it. *)
Definition cyclic_world : world :=
  World {[ 1%positive := ODict [("name", VRef 2%positive)];
           2%positive := OList [VInt 12; VRef 2%positive; VRef 1%positive] ]} [].

(** ** Single-flight loading

    The Handler Loader is not among the sources.  Its cache is modelled
    from the specification (§4.2, §5) as the slot of one function and the
    callers asking for that function, interleaved in any order: each step
    is one caller's atomic action on the slot. *)

(** Modelled from the spec: the outcome of a load attempt, "the result
    (success or failure)" that followers reuse. *)
Inductive load_result :=
| LoadOk (artifact : nat)
| LoadFailed (reason : string).

(** Modelled from the spec: the cache entry of a function, keyed by its
    identity: nothing yet, a load in flight, or the cached result. *)
Inductive slot :=
| Absent
| InFlight
| Done (r : load_result).

(** Modelled from the spec: a caller has not asked yet, is the one
    performing the load, awaits the in-flight load, or has its result. *)
Inductive caller :=
| NotStarted
| Loading
| Waiting
| Finished (r : load_result).

(** Modelled from the spec: the slot, the number of load attempts made so
    far, and the callers. *)
Record loader := Loader {
  l_slot : slot;
  l_attempts : nat;
  l_callers : list caller
}.

(** Modelled from the spec: "only one load attempt proceeds per function
    even under concurrent first-time invocation; followers await and reuse
    the result (success or failure)", loading being "a one-time,
    mutually-exclusive event".  A caller that finds the slot empty claims
    it and starts the one attempt; one that finds a load in flight waits;
    one that finds a result takes it; the loading caller publishes the
    result of its attempt, whatever it is; a waiting caller takes the
    published result. *)
Inductive step : loader → loader → Prop :=
| step_claim s i :
    l_callers s !! i = Some NotStarted → l_slot s = Absent →
    step s (Loader InFlight (S (l_attempts s)) (<[i := Loading]> (l_callers s)))
| step_join s i :
    l_callers s !! i = Some NotStarted → l_slot s = InFlight →
    step s (Loader InFlight (l_attempts s) (<[i := Waiting]> (l_callers s)))
| step_hit s i r :
    l_callers s !! i = Some NotStarted → l_slot s = Done r →
    step s (Loader (Done r) (l_attempts s) (<[i := Finished r]> (l_callers s)))
| step_publish s i r :
    l_callers s !! i = Some Loading →
    step s (Loader (Done r) (l_attempts s) (<[i := Finished r]> (l_callers s)))
| step_wake s i r :
    l_callers s !! i = Some Waiting → l_slot s = Done r →
    step s (Loader (Done r) (l_attempts s) (<[i := Finished r]> (l_callers s))).

(** Modelled from the spec: [n] callers about to ask for a function that
    has not been loaded. *)
Definition initial (n : nat) : loader := Loader Absent 0 (replicate n NotStarted).

Definition finished (c : caller) : bool :=
  match c with
  | Finished _ => true
  | _ => false
  end.

Definition all_served (s : loader) : Prop :=
  Forall (λ c, finished c = true) (l_callers s).

(** How far a caller has come; every step moves one caller forward. *)
Definition rank (c : caller) : nat :=
  match c with
  | NotStarted => 0
  | Loading | Waiting => 1
  | Finished _ => 2
  end.

Definition advance (s : loader) : nat := list_sum (rank <$> l_callers s).

(** What the slot says about the callers at every moment of a run. *)
Definition loader_inv (s : loader) : Prop :=
  match l_slot s with
  | Absent =>
      l_attempts s = 0%nat ∧ Forall (λ c, c = NotStarted) (l_callers s)
  | InFlight =>
      l_attempts s = 1%nat
      ∧ (∃ i, l_callers s !! i = Some Loading
              ∧ ∀ k, l_callers s !! k = Some Loading → k = i)
      ∧ (∀ k r, l_callers s !! k ≠ Some (Finished r))
  | Done r =>
      l_attempts s = 1%nat
      ∧ (∀ k, l_callers s !! k ≠ Some Loading)
      ∧ (∀ k r', l_callers s !! k = Some (Finished r') → r' = r)
  end.

(** ** Well-formed stores

    Every reference the interpreter holds points to a live object: a store
    is closed when each object's elements are allocated in it.  Nothing
    requires it to be a tree; a container may hold itself. *)

Definition allocated (h : heap) (v : val) : bool :=
  match v with
  | VRef l => bool_decide (is_Some (h !! l))
  | _ => true
  end.

Definition closed (h : heap) : Prop :=
  map_Forall (λ _ o, forallb (allocated h) (children o) = true) h.

(** A dependency that hands back a closed store and, when it returns, a
    value allocated in it. *)
Definition keeps_closed (greet : dep) : Prop :=
  ∀ arg h o h',
    closed h → allocated h arg = true →
    greet arg h = Some (o, h') →
    closed h' ∧ match o with
                | Ret r => allocated h' r = true
                | Raise _ => True
                end.

(** The two errors rendering a value can raise. *)
Definition is_rendering_error (e : exn) : bool :=
  match e with
  | ValueError _ | RecursionError _ => true
  | _ => false
  end.

(** An event from which the handlers take no name: anything that is not a
    dict, and a dict without the key ["name"]. *)
Definition nameless (h : heap) (event : val) : Prop :=
  match event with
  | VRef l =>
      match h !! l with
      | Some (ODict entries) => dict_lookup "name" entries = None
      | Some (OList _) => True
      | None => False
      end
  | _ => True
  end.

(** The identity greeter: it hands its argument back. *)
Definition greet_echo : dep := λ name h, Some (Ret name, h).

(** The event [{"x": 1, "name": "Ada"}]. *)
Definition ada_extra_world : world :=
  World {[ 1%positive := ODict [("x", VInt 1); ("name", VStr "Ada")] ]} [].

(** * Properties *)

(** ** Induction over wire values *)

Lemma json_nested_ind (P : json → Prop) :
  P JNull →
  (∀ b, P (JBool b)) →
  (∀ z, P (JInt z)) →
  (∀ f, P (JFloat f)) →
  (∀ s, P (JStr s)) →
  (∀ js, Forall P js → P (JArr js)) →
  (∀ ms, Forall (λ m, P m.2) ms → P (JObj ms)) →
  ∀ j, P j.
Proof.
  intros Hnull Hbool Hint Hfloat Hstr Harr Hobj.
  fix IH 1. intros [| b | z | f | s | js | ms].
  - exact Hnull.
  - apply Hbool.
  - apply Hint.
  - apply Hfloat.
  - apply Hstr.
  - apply Harr. induction js as [| j js IHjs]; constructor; [apply IH | exact IHjs].
  - apply Hobj. induction ms as [| [k j] ms IHms]; constructor; [apply IH | exact IHms].
Qed.

Lemma json_size_pos j : (0 < json_size j)%nat.
Proof. destruct j; simpl; lia. Qed.

Lemma json_size_item j js : j ∈ js → (json_size j < json_size (JArr js))%nat.
Proof.
  intros Hin. simpl. induction Hin as [j js | j j' js _ IH]; simpl; lia.
Qed.

Lemma json_size_member (m : string * json) ms :
  m ∈ ms → (json_size m.2 < json_size (JObj ms))%nat.
Proof.
  intros Hin. simpl. induction Hin as [m ms | m m' ms _ IH]; simpl; lia.
Qed.

(** ** The store representation of wire values *)

Lemma Forall2_Forall_impl {A B} (R R' : A → B → Prop) l k :
  Forall (λ x, ∀ y, R x y → R' x y) l → Forall2 R l k → Forall2 R' l k.
Proof.
  intros Hall Hf. induction Hf; inversion Hall; subst; constructor; auto.
Qed.

Lemma Forall2_Forall_inj {A B} (R : A → B → Prop) l l' k :
  Forall (λ x, ∀ x' y, R x y → R x' y → x = x') l →
  Forall2 R l k → Forall2 R l' k → l = l'.
Proof.
  intros Hall Hf. revert l'.
  induction Hf as [| x y l k HR Hf IH]; intros l2 Hf'; inversion Hf'; subst; [done |].
  inversion Hall; subst. f_equal; eauto.
Qed.

Lemma represents_weaken h h' j v :
  h ⊆ h' → represents h j v → represents h' j v.
Proof.
  intros Hsub. revert v.
  induction j as [| | | | | js IH | ms IH] using json_nested_ind;
    intros v Hrep; inversion Hrep; subst; try constructor.
  - apply rep_arr with items; [by eapply lookup_weaken |].
    eapply Forall2_Forall_impl; [exact IH | done].
  - apply rep_obj with entries; [by eapply lookup_weaken |].
    eapply Forall2_Forall_impl; [| eassumption].
    eapply Forall_impl; [exact IH |].
    intros m Hm e [? ?]; auto.
Qed.

Lemma represents_inj h j j' v :
  represents h j v → represents h j' v → j = j'.
Proof.
  revert j' v.
  induction j as [| | | | | js IH | ms IH] using json_nested_ind;
    intros j' v Hrep Hrep'; inversion Hrep; subst; inversion Hrep'; subst;
    try reflexivity; simplify_eq.
  - f_equal. eapply Forall2_Forall_inj; [| eassumption | eassumption].
    eapply Forall_impl; [exact IH |]. intros j Hj j' v; apply Hj.
  - f_equal. eapply Forall2_Forall_inj; [| eassumption | eassumption].
    eapply Forall_impl; [exact IH |].
    intros [k j] Hj [k' j'] [k2 v] [? ?] [? ?]; simplify_eq/=.
    f_equal; eauto.
Qed.

Lemma represents_lookup h ms entries key :
  Forall2 (λ (m : string * json) (e : string * val),
             m.1 = e.1 ∧ represents h m.2 e.2) ms entries →
  match json_field key ms with
  | Some j => ∃ v, dict_lookup key entries = Some v ∧ represents h j v
  | None => dict_lookup key entries = None
  end.
Proof.
  induction 1 as [| [k j] [k' v] ms entries [Hk Hv] _ IH]; simpl in *; [done |].
  subst k'. destruct (String.eqb k key); eauto.
Qed.

(** ** Rendering a wire value held in the store *)

Lemma render_all_collect {A B} (R : A → B → Prop)
    (f : B → option (outcome string)) (g : A → outcome string) xs ys :
  (∀ x y, x ∈ xs → R x y → f y = Some (g x)) →
  Forall2 R xs ys →
  render_all f ys = Some (collect (map g xs)).
Proof.
  intros Hfg Hf.
  induction Hf as [| x y xs ys HR Hf IH]; simpl; [done |].
  rewrite (Hfg x y); [| left | done].
  rewrite IH; [| intros x' y' Hin; apply Hfg; by right].
  destruct (g x) as [s | e]; [| done].
  by destruct (collect (map g xs)).
Qed.

Section RenderingFacts.
Context `{Runtime}.

(** Rendering from the store agrees with rendering the wire value, errors
    included: on a tree the ellipsis form never shows. *)
Lemma repr_in_represents h j :
  ∀ depth seen v,
    represents h j v →
    (∀ l j', l ∈ seen → represents h j' (VRef l) →
             (json_size j < json_size j')%nat) →
    repr_in depth h seen v = Some (json_repr j depth).
Proof.
  induction j as [| | | | | js IH | ms IH] using json_nested_ind;
    intros depth seen v Hrep Hsz;
    inversion Hrep as [| | | | | l items js' Hl Hitems | l entries ms' Hl Hms];
    subst; try (destruct depth; reflexivity).
  - destruct depth as [| depth]; simpl; rewrite Hl; [done |].
    destruct (decide (l ∈ seen)) as [Hin | Hnin].
    { specialize (Hsz l (JArr js) Hin Hrep). lia. }
    rewrite (render_all_collect (represents h) _
               (λ j, json_repr j depth) js items); [| | done].
    { by destruct (collect _). }
    intros j v Hj Hv.
    rewrite Forall_forall in IH. apply (IH j Hj); [done |].
    intros l' j' [-> | Hl']%elem_of_cons Hj'.
    + rewrite <- (represents_inj _ _ _ _ Hrep Hj'). by apply json_size_item.
    + specialize (Hsz l' j' Hl' Hj').
      pose proof (json_size_item j js Hj). lia.
  - destruct depth as [| depth]; simpl; rewrite Hl; [done |].
    destruct (decide (l ∈ seen)) as [Hin | Hnin].
    { specialize (Hsz l (JObj ms) Hin Hrep). lia. }
    rewrite (render_all_collect
               (λ (m : string * json) (e : string * val),
                  m.1 = e.1 ∧ represents h m.2 e.2) _
               (λ m : string * json,
                  match json_repr m.2 depth with
                  | Ret r => Ret (repr_str m.1 +:+ ": " +:+ r)
                  | Raise e => Raise e
                  end) ms entries); [| | done].
    { by destruct (collect _). }
    intros m e Hm [Hk Hv].
    rewrite Forall_forall in IH. rewrite (IH m Hm depth (l :: seen) e.2).
    + rewrite Hk. by destruct (json_repr m.2 depth).
    + done.
    + intros l' j' [-> | Hl']%elem_of_cons Hj'.
      * rewrite <- (represents_inj _ _ _ _ Hrep Hj'). by apply json_size_member.
      * specialize (Hsz l' j' Hl' Hj').
        pose proof (json_size_member m ms Hm). lia.
Qed.

Lemma py_repr_represents h j v :
  represents h j v → py_repr h v = Some (json_repr j repr_depth_limit).
Proof.
  intros Hrep. unfold py_repr. apply repr_in_represents; [done |].
  intros l j' Hl. by apply elem_of_nil in Hl.
Qed.

Lemma py_str_represents h j v :
  represents h j v → py_str h v = Some (json_str j).
Proof.
  intros Hrep. pose proof (py_repr_represents h j v Hrep) as Hrepr.
  destruct j; inversion Hrep; subst; done.
Qed.

Lemma py_str_None h : py_str h VNone = Some (Ret "None").
Proof. unfold py_str, py_repr. by destruct repr_depth_limit. Qed.

(** Rendering raises nothing but its own two errors. *)
Lemma render_all_raises {A} (f : A → option (outcome string)) xs e :
  (∀ x e', x ∈ xs → f x = Some (Raise e') → is_rendering_error e' = true) →
  render_all f xs = Some (Raise e) →
  is_rendering_error e = true.
Proof.
  induction xs as [| x xs IH]; intros Hf Hrun; simpl in Hrun; [done |].
  destruct (f x) as [[s | e0] |] eqn:Hx; [| | done].
  - destruct (render_all f xs) as [[ss | e1] |] eqn:Hxs; simplify_eq.
    apply IH; [| done]. intros x' e' Hin. apply Hf. by right.
  - simplify_eq. eapply Hf; [left | done].
Qed.

Lemma repr_in_raises h depth :
  ∀ seen v e,
    repr_in depth h seen v = Some (Raise e) → is_rendering_error e = true.
Proof.
  induction depth as [| depth IH]; intros seen v e Hrun;
    destruct v as [| b | z | f | s | l]; simpl in Hrun; simplify_eq;
    try (unfold str_int in *; case_decide; by simplify_eq).
  - destruct (h !! l); by simplify_eq.
  - destruct (h !! l) as [[items | entries] |]; [| | done];
      destruct (decide (l ∈ seen)); simplify_eq.
    + destruct (render_all _ items) as [[rs | e0] |] eqn:Hall; simplify_eq.
      eapply render_all_raises; [| exact Hall].
      intros x e' _. apply IH.
    + destruct (render_all _ entries) as [[rs | e0] |] eqn:Hall; simplify_eq.
      eapply render_all_raises; [| exact Hall].
      intros [k x] e' _. simpl.
      destruct (repr_in depth h (l :: seen) x) as [[r | e1] |] eqn:Hx;
        intros; simplify_eq. by eapply IH.
Qed.

Lemma py_str_raises h v e :
  py_str h v = Some (Raise e) → is_rendering_error e = true.
Proof.
  destruct v; simpl; try done; apply repr_in_raises.
Qed.

End RenderingFacts.

(** ** What the handlers compute *)

Lemma type_name_represents h j v : represents h j v → is_Some (type_name h v).
Proof.
  intros Hrep; inversion Hrep as [| | | | | l items js Hl _ | l entries ms Hl _];
    subst; simpl; rewrite ?Hl; eauto.
Qed.

(** The [try] block of either handler: on every value it binds [name]
    without raising, so the [except] branch is never entered. *)
Lemma name_extraction fallback event w t :
  type_name (w_heap w) event = Some t →
  try_except
    (is_dict ← isinstance_dict event;
     if is_dict : bool
     then method_get event "name" fallback
     else mret fallback)
    (λ _, mret fallback) w
  = Some (Ret (name_of (w_heap w) fallback event), w).
Proof.
  intros Ht. unfold try_except, mbind, M_bind, isinstance_dict. rewrite Ht.
  destruct event as [| b | z | f | s | l];
    try (simpl in Ht; simplify_eq; reflexivity).
  unfold type_name in Ht. unfold name_of, method_get.
  destruct (w_heap w !! l) as [[items | entries] |] eqn:Hl; simplify_eq.
  - reflexivity.
  - simpl. rewrite Hl. by destruct (dict_lookup "name" entries).
Qed.

Lemma fresh_unallocated (h : heap) : h !! fresh (dom h) = None.
Proof. apply not_elem_of_dom, is_fresh. Qed.

Lemma alloc_extends (h : heap) o : h ⊆ <[fresh (dom h) := o]> h.
Proof. apply insert_subseteq, fresh_unallocated. Qed.

Lemma message_reply_returns h calls j v :
  represents h j v →
  returns (message_reply h calls v) (JObj [("message", j)]).
Proof.
  intros Hrep. eexists _, _. split; [reflexivity |]. simpl.
  eapply rep_obj; [apply lookup_insert_eq |].
  constructor; [| constructor]. split; [done |].
  eapply represents_weaken; [apply alloc_extends | done].
Qed.

Lemma message_reply_frame h calls v o w' :
  message_reply h calls v = Some (o, w') → h ⊆ w_heap w'.
Proof. intros [= <- <-]. apply alloc_extends. Qed.

Lemma handler_w_deps_unfold greet event w t :
  type_name (w_heap w) event = Some t →
  handler_w_deps greet event w =
    let name := name_of (w_heap w) VNone event in
    match greet name (w_heap w) with
    | Some (Ret r, h') => message_reply h' (w_calls w ++ [name]) r
    | Some (Raise e, h') => Some (Raise e, World h' (w_calls w ++ [name]))
    | None => None
    end.
Proof.
  intros Ht. unfold handler_w_deps. unfold mbind at 1, M_bind at 1.
  rewrite (name_extraction VNone event w t Ht).
  unfold mbind, M_bind, call_dep. simpl.
  destruct (greet _ _) as [[[r | e] h'] |]; reflexivity.
Qed.

Lemma name_of_passed h j event :
  represents h j event → represents h (passed_name j) (name_of h VNone event).
Proof.
  intros Hrep; inversion Hrep as [| | | | | l items js Hl _ | l entries ms Hl Hms];
    subst; simpl; rewrite ?Hl; try constructor.
  pose proof (represents_lookup h ms entries "name" Hms) as Hfield.
  destruct (json_field "name" ms) as [j |]; simpl.
  - destruct Hfield as (v & -> & Hv). done.
  - rewrite Hfield. constructor.
Qed.

Lemma name_of_greeted h j event :
  represents h j event →
  represents h (greeted_name j) (name_of h (VStr "World") event).
Proof.
  intros Hrep; inversion Hrep as [| | | | | l items js Hl _ | l entries ms Hl Hms];
    subst; simpl; rewrite ?Hl; try constructor.
  pose proof (represents_lookup h ms entries "name" Hms) as Hfield.
  destruct (json_field "name" ms) as [j |]; simpl.
  - destruct Hfield as (v & -> & Hv). done.
  - rewrite Hfield. constructor.
Qed.

Section HandlerFacts.
Context `{Runtime}.

Lemma handler_unfold event w t :
  type_name (w_heap w) event = Some t →
  handler event w =
    match py_str (w_heap w) (name_of (w_heap w) (VStr "World") event) with
    | Some (Ret s) =>
        message_reply (w_heap w) (w_calls w) (VStr ("Hello, " +:+ s +:+ "!"))
    | Some (Raise e) => Some (Raise e, w)
    | None => None
    end.
Proof.
  intros Ht. unfold handler. unfold mbind at 1, M_bind at 1.
  rewrite (name_extraction (VStr "World") event w t Ht).
  unfold mbind, M_bind, format_value. simpl.
  destruct (py_str _ _) as [[s | e] |]; reflexivity.
Qed.

(** On a wire event the no-dependency handler answers with the greeting of
    the name it extracted, in a new dict, or with the error that rendering
    the name raises; nothing else changes. *)
Lemma handler_wire w j event :
  represents (w_heap w) j event →
  handler event w =
    match json_str (greeted_name j) with
    | Ret s =>
        message_reply (w_heap w) (w_calls w) (VStr ("Hello, " +:+ s +:+ "!"))
    | Raise e => Some (Raise e, w)
    end.
Proof.
  intros Hrep. destruct (type_name_represents _ _ _ Hrep) as [t Ht].
  rewrite (handler_unfold event w t Ht).
  by rewrite (py_str_represents _ _ _ (name_of_greeted _ _ _ Hrep)).
Qed.

(** Whatever outcome [handler.py] has is a reply allocated in the store it
    found, or an error of the rendering with the world as it was. *)
Lemma handler_outcome event w x :
  handler event w = Some x →
  (∃ s, py_str (w_heap w) (name_of (w_heap w) (VStr "World") event)
        = Some (Ret s)
        ∧ Some x = message_reply (w_heap w) (w_calls w)
                     (VStr ("Hello, " +:+ s +:+ "!")))
  ∨ (∃ e, is_rendering_error e = true ∧ x = (Raise e, w)).
Proof.
  intros Hrun. destruct (type_name (w_heap w) event) as [t |] eqn:Ht.
  - rewrite (handler_unfold event w t Ht) in Hrun.
    destruct (py_str _ _) as [[s | e] |] eqn:Hs; [| | done].
    + left. by exists s.
    + right. exists e. split; [by eapply py_str_raises | congruence].
  - unfold handler, mbind, M_bind, try_except, isinstance_dict in Hrun.
    by rewrite Ht in Hrun.
Qed.

End HandlerFacts.

(** The no-dependency handler on the event [{"name": 10 ** 4300}]. *)
Lemma handler_on_big_int_name :
  @handler example_runtime (VRef 1%positive) big_int_world
  = Some (Raise (ValueError "Exceeds the limit for integer string conversion"),
          big_int_world).
Proof. vm_compute. reflexivity. Qed.
(** ** The specified payloads *)

Section Payloads.
Context `{Runtime}.

(** C1 — the no-dependency handler on the three payloads of the
    specification: the event [{"name": "Ada"}] yields
    [{"message": "Hello, Ada!"}]; the empty mapping and the string
    ["not-a-mapping"] both yield [{"message": "Hello, World!"}].  Each time
    the handler returns normally: the default comes from the handler's own
    branches, no error reaches the caller. *)
Theorem handler_specified_payloads w j event :
  represents (w_heap w) j event →
  (j = JObj [("name", JStr "Ada")] →
   returns (handler event w) (message "Hello, Ada!")) ∧
  (j = JObj [] →
   returns (handler event w) (message "Hello, World!")) ∧
  (j = JStr "not-a-mapping" →
   returns (handler event w) (message "Hello, World!")).
Proof.
  intros Hrep. rewrite (handler_wire w j event Hrep).
  repeat split; intros ->; simpl; apply message_reply_returns; constructor.
Qed.

End Payloads.

Lemma handler_specified_payloads_witness :
  represents (w_heap ada_world) (JObj [("name", JStr "Ada")]) ada_event ∧
  returns (@handler example_runtime ada_event ada_world)
          (message "Hello, Ada!").
Proof.
  assert (Hrep : represents (w_heap ada_world)
                   (JObj [("name", JStr "Ada")]) ada_event).
  { eapply rep_obj; [reflexivity |]. repeat constructor. }
  split; [exact Hrep |].
  exact (proj1 (@handler_specified_payloads example_runtime
                  ada_world _ ada_event Hrep) eq_refl).
Defined.

(** C2 (amended) — the dependency-using handler, with a greeter that maps
    a string [n] to ["Hi, " ++ n]: the event [{"name": "Ada"}] yields
    [{"message": "Hi, Ada"}]; on an event that is not a mapping the
    handler is exactly the call [greet(None)] wrapped in the reply dict:
    it returns [{"message": r}] when that call returns [r], and when it
    raises, the exception is the one [greet(None)] raised, which the
    handler lets through. *)
Theorem handler_w_deps_specified_payloads greet w j event :
  (∀ s h, ∃ h', greet (VStr s) h = Some (Ret (VStr ("Hi, " +:+ s)), h')) →
  represents (w_heap w) j event →
  (j = JObj [("name", JStr "Ada")] →
   returns (handler_w_deps greet event w) (message "Hi, Ada")) ∧
  (is_mapping j = false →
   handler_w_deps greet event w
   = (greeting ← call_dep greet VNone; new_dict [("message", greeting)]) w
   ∧ (∀ r h', greet VNone (w_heap w) = Some (Ret r, h') →
        handler_w_deps greet event w
        = message_reply h' (w_calls w ++ [VNone]) r)
   ∧ (∀ e w', handler_w_deps greet event w = Some (Raise e, w') →
        ∃ h', greet VNone (w_heap w) = Some (Raise e, h'))).
Proof.
  intros Hgreet Hrep. destruct (type_name_represents _ _ _ Hrep) as [t Ht].
  rewrite (handler_w_deps_unfold greet event w t Ht). split.
  - intros ->.
    inversion Hrep as [| | | | | | l entries ms Hl Hms]; subst.
    inversion Hms as [| m [k v] ms' es' [Hk Hv] Hrest]; subst.
    inversion Hrest; subst. simpl in Hk, Hv. subst k. inversion Hv; subst.
    simpl. rewrite Hl. simpl.
    destruct (Hgreet "Ada" (w_heap w)) as [h' ->].
    apply message_reply_returns. constructor.
  - intros Hnm.
    assert (Hname : name_of (w_heap w) VNone event = VNone).
    { inversion Hrep as [| | | | | l items js Hl _ | l entries ms Hl _];
        subst; simpl in *; rewrite ?Hl; done. }
    simpl. rewrite Hname. split; [| split].
    + unfold mbind, M_bind, call_dep.
      destruct (greet VNone (w_heap w)) as [[[r | e] h'] |]; reflexivity.
    + intros r h' ->. reflexivity.
    + intros e w' Hraise.
      destruct (greet VNone (w_heap w)) as [[[r | e'] h'] |]; [done | | done].
      injection Hraise as -> <-. by eexists.
Qed.

Lemma handler_w_deps_specified_payloads_witness :
  (∀ s h, ∃ h', greet_hi (VStr s) h = Some (Ret (VStr ("Hi, " +:+ s)), h')) ∧
  represents (w_heap ada_world) (JObj [("name", JStr "Ada")]) ada_event ∧
  returns (handler_w_deps greet_hi ada_event ada_world) (message "Hi, Ada") ∧
  represents (w_heap ada_world) (JStr "not-a-mapping") (VStr "not-a-mapping") ∧
  handler_w_deps greet_hi (VStr "not-a-mapping") ada_world
  = message_reply (w_heap ada_world) [VNone] (VStr "Hi, World").
Proof.
  assert (Hgreet : ∀ s h, ∃ h',
             greet_hi (VStr s) h = Some (Ret (VStr ("Hi, " +:+ s)), h')).
  { intros s h. exists h. reflexivity. }
  assert (Hrep : represents (w_heap ada_world)
                   (JObj [("name", JStr "Ada")]) ada_event).
  { eapply rep_obj; [reflexivity |]. repeat constructor. }
  assert (Hstr : represents (w_heap ada_world)
                   (JStr "not-a-mapping") (VStr "not-a-mapping")).
  { constructor. }
  split; [exact Hgreet |]. split; [exact Hrep |]. split.
  - exact (proj1 (handler_w_deps_specified_payloads greet_hi
                    ada_world _ ada_event Hgreet Hrep) eq_refl).
  - split; [exact Hstr |].
    exact (proj1 (proj2 (proj2 (handler_w_deps_specified_payloads greet_hi
                                  ada_world _ (VStr "not-a-mapping")
                                  Hgreet Hstr) eq_refl))
             (VStr "Hi, World") (w_heap ada_world) eq_refl).
Defined.

(** C2, as stated, fails: the greeter [return "Hi, " + name] maps every
    string [n] to ["Hi, " ++ n], and with it the handler raises a
    [TypeError] on the event ["not-a-mapping"]; it returns nothing. *)
Lemma handler_w_deps_raises_on_non_mapping :
  (∀ s h, ∃ h', greet_concat (VStr s) h
                = Some (Ret (VStr ("Hi, " +:+ s)), h')) ∧
  represents (w_heap empty_world) (JStr "not-a-mapping")
    (VStr "not-a-mapping") ∧
  handler_w_deps greet_concat (VStr "not-a-mapping") empty_world
  = Some (Raise (TypeError "can only concatenate str to str"),
          World ∅ [VNone]) ∧
  ¬ ∃ v w', handler_w_deps greet_concat (VStr "not-a-mapping") empty_world
            = Some (Ret v, w').
Proof.
  split; [| split; [| split]].
  - intros s h. by exists h.
  - constructor.
  - reflexivity.
  - intros (v & w' & Hret). vm_compute in Hret. discriminate Hret.
Qed.

(** ** The error boundary of the handlers *)

(** C3, as stated, fails for both handlers.  With a greeter that raises,
    the dependency-using handler raises on the wire event
    [{"name": "Ada"}].  And the no-dependency handler raises a
    [ValueError] on the wire event [{"name": 10 ** 4300}]: the name is
    rendered in the f-string, after the [try] block has ended. *)
Lemma handler_w_deps_propagates_greet_error :
  represents (w_heap ada_world) (JObj [("name", JStr "Ada")]) ada_event ∧
  handler_w_deps greet_failing ada_event ada_world
  = Some (Raise (OtherException "RuntimeError" "greeter unavailable"),
          World (w_heap ada_world) [VStr "Ada"]) ∧
  (¬ ∃ v w', handler_w_deps greet_failing ada_event ada_world
             = Some (Ret v, w')) ∧
  represents (w_heap big_int_world) (JObj [("name", JInt big_int)])
    (VRef 1%positive) ∧
  @handler example_runtime (VRef 1%positive) big_int_world
  = Some (Raise (ValueError "Exceeds the limit for integer string conversion"),
          big_int_world).
Proof.
  split; [| split; [| split; [| split]]].
  - eapply rep_obj; [reflexivity |]. repeat constructor.
  - reflexivity.
  - intros (v & w' & Hret). vm_compute in Hret. discriminate Hret.
  - eapply rep_obj; [reflexivity |]. repeat constructor.
  - exact handler_on_big_int_name.
Qed.

Section Boundary.
Context `{Runtime}.

(** C3 (amended) — on every wire event the [try] block of either handler
    binds the name without raising, and what follows it is not guarded.
    The no-dependency handler renders the name: it returns the greeting
    when the name has a text, and otherwise raises the error of the
    rendering, a [ValueError] or a [RecursionError], leaving the world as
    it was.  The dependency-using handler calls [greet]: it returns
    whenever [greet] returns, and it raises exactly the exception [greet]
    raised, in the world [greet] left. *)
Theorem handlers_error_boundary greet w j event :
  represents (w_heap w) j event →
  handler event w
  = match json_str (greeted_name j) with
    | Ret s =>
        message_reply (w_heap w) (w_calls w) (VStr ("Hello, " +:+ s +:+ "!"))
    | Raise e => Some (Raise e, w)
    end
  ∧ (∀ e w', handler event w = Some (Raise e, w') →
       is_rendering_error e = true ∧ w' = w) ∧
  (∀ r h', greet (name_of (w_heap w) VNone event) (w_heap w)
           = Some (Ret r, h') →
     ∃ v w', handler_w_deps greet event w = Some (Ret v, w')) ∧
  (∀ e w', handler_w_deps greet event w = Some (Raise e, w') ↔
     ∃ h', greet (name_of (w_heap w) VNone event) (w_heap w)
           = Some (Raise e, h')
           ∧ w' = World h' (w_calls w ++ [name_of (w_heap w) VNone event])).
Proof.
  intros Hrep. destruct (type_name_represents _ _ _ Hrep) as [t Ht].
  split; [exact (handler_wire w j event Hrep) | split].
  { intros e w' Hrun.
    apply handler_outcome in Hrun as [(s & _ & Heq) | (e' & He' & Heq)].
    - unfold message_reply in Heq. congruence.
    - by injection Heq as -> ->. }
  rewrite (handler_w_deps_unfold greet event w t Ht). simpl. split.
  - intros r h' ->. by eexists _, _.
  - intros e w'.
    destruct (greet _ _) as [[[r | e'] h'] |]; split;
      try (intros (h2 & Hg & _); discriminate Hg); try discriminate.
    + intros [= -> <-]. by eexists.
    + intros (h2 & [= -> ->] & ->). reflexivity.
Qed.

(** C4 (amended) — a value a handler returns is a one-key mapping from
    ["message"] to a string, a shape the Result Serializer accepts.  The
    no-dependency handler returns one on every wire event whose name has a
    text (it raises when rendering the name fails); the dependency-using
    handler, with a greeter that returns strings, returns one on every
    wire event. *)
Theorem handlers_return_accepted_shape greet w j event :
  returns_str greet →
  represents (w_heap w) j event →
  (∀ v w', handler event w = Some (Ret v, w') →
           ∃ s, represents (w_heap w') (message s) v
                ∧ accepted_shape (w_heap w') v) ∧
  (∀ s, json_str (greeted_name j) = Ret s →
        ∃ v w', handler event w = Some (Ret v, w')
                ∧ represents (w_heap w') (message ("Hello, " +:+ s +:+ "!")) v) ∧
  (∃ s v w', handler_w_deps greet event w = Some (Ret v, w')
             ∧ represents (w_heap w') (message s) v
             ∧ accepted_shape (w_heap w') v).
Proof.
  intros Hstr Hrep. destruct (type_name_represents _ _ _ Hrep) as [t Ht].
  split; [| split].
  - intros v w' Hrun.
    apply handler_outcome in Hrun as [(s & _ & Heq) | (e & _ & Heq)]; [| done].
    set (text := "Hello, " +:+ s +:+ "!") in *.
    destruct (message_reply_returns (w_heap w) (w_calls w) (JStr text) (VStr text))
      as (v0 & w0 & Heq0 & Hv); [constructor |].
    rewrite Heq0 in Heq. injection Heq as -> ->.
    exists text. split; [exact Hv | by eexists].
  - intros s Hs. rewrite (handler_wire w j event Hrep), Hs.
    apply message_reply_returns. constructor.
  - rewrite (handler_w_deps_unfold greet event w t Ht). simpl.
    destruct (Hstr (name_of (w_heap w) VNone event) (w_heap w)) as (s & h' & ->).
    destruct (message_reply_returns h'
                 (w_calls w ++ [name_of (w_heap w) VNone event])
                 (JStr s) (VStr s)) as (v & w' & Heq & Hv); [constructor |].
    exists s, v, w'. split; [exact Heq |]. split; [exact Hv |]. by eexists.
Qed.

End Boundary.

Lemma handlers_error_boundary_witness :
  represents (w_heap ada_world) (JObj [("name", JStr "Ada")]) ada_event ∧
  @handler example_runtime ada_event ada_world
  = message_reply (w_heap ada_world) [] (VStr "Hello, Ada!") ∧
  (∃ v w', handler_w_deps greet_hi ada_event ada_world = Some (Ret v, w')) ∧
  handler_w_deps greet_failing ada_event ada_world
  = Some (Raise (OtherException "RuntimeError" "greeter unavailable"),
          World (w_heap ada_world) [VStr "Ada"]).
Proof.
  assert (Hrep : represents (w_heap ada_world)
                   (JObj [("name", JStr "Ada")]) ada_event).
  { eapply rep_obj; [reflexivity |]. repeat constructor. }
  split; [exact Hrep |]. split; [| split].
  - exact (proj1 (@handlers_error_boundary example_runtime greet_failing
                    ada_world _ ada_event Hrep)).
  - exact (proj1 (proj2 (proj2 (@handlers_error_boundary example_runtime
                                  greet_hi ada_world _ ada_event Hrep)))
             (VStr "Hi, Ada") (w_heap ada_world) eq_refl).
  - apply (proj2 (proj2 (proj2 (@handlers_error_boundary example_runtime
                                  greet_failing ada_world _ ada_event Hrep)))).
    exists (w_heap ada_world). split; reflexivity.
Defined.

Lemma handlers_return_accepted_shape_witness :
  returns_str greet_hi ∧
  represents (w_heap ada_world) (JObj [("name", JStr "Ada")]) ada_event ∧
  (∃ v w', @handler example_runtime ada_event ada_world = Some (Ret v, w')
           ∧ represents (w_heap w') (message "Hello, Ada!") v
           ∧ ∃ s, represents (w_heap w') (message s) v
                  ∧ accepted_shape (w_heap w') v) ∧
  ∃ s v w', handler_w_deps greet_hi ada_event ada_world = Some (Ret v, w')
            ∧ represents (w_heap w') (message s) v
            ∧ accepted_shape (w_heap w') v.
Proof.
  assert (Hstr : returns_str greet_hi).
  { intros [| | | | s |] h; eexists _, h; reflexivity. }
  assert (Hrep : represents (w_heap ada_world)
                   (JObj [("name", JStr "Ada")]) ada_event).
  { eapply rep_obj; [reflexivity |]. repeat constructor. }
  split; [exact Hstr |]. split; [exact Hrep |]. split.
  - destruct (proj1 (proj2 (@handlers_return_accepted_shape example_runtime
                              greet_hi ada_world _ ada_event Hstr Hrep))
                "Ada" eq_refl) as (v & w' & Hrun & Hv).
    exists v, w'. split; [exact Hrun |]. split; [exact Hv |].
    exact (proj1 (@handlers_return_accepted_shape example_runtime
                    greet_hi ada_world _ ada_event Hstr Hrep) v w' Hrun).
  - exact (proj2 (proj2 (@handlers_return_accepted_shape example_runtime
                           greet_hi ada_world _ ada_event Hstr Hrep))).
Defined.

(** C4, as stated, fails for the no-dependency handler: on the wire event
    [{"name": 10 ** 4300}] it returns no value at all, it raises. *)
Lemma handler_returns_nothing_on_big_int :
  represents (w_heap big_int_world) (JObj [("name", JInt big_int)])
    (VRef 1%positive) ∧
  ¬ ∃ v w', @handler example_runtime (VRef 1%positive) big_int_world
            = Some (Ret v, w').
Proof.
  split.
  - eapply rep_obj; [reflexivity |]. repeat constructor.
  - intros (v & w' & Hret). rewrite handler_on_big_int_name in Hret.
    discriminate Hret.
Qed.

(** ** The entry point of each unit *)

Section EntryPoints.
Context `{Runtime}.

(** C5 — each source unit defines exactly one function, named [handler],
    with the single positional parameter [event]: calling it with one
    argument runs the handler on that argument, and calling it with any
    other number of arguments is a [TypeError]. *)
Theorem units_expose_one_handler greet :
  (∃ f, entry_points handler_py = [("handler", f)]
        ∧ fn_params f = ["event"]
        ∧ (∀ event, call_function f [event] = handler event)
        ∧ (∀ args w, length args ≠ 1%nat →
             ∃ msg, call_function f args w = Some (Raise (TypeError msg), w)))
  ∧
  (∃ f, entry_points (handler_w_deps_py greet) = [("handler", f)]
        ∧ fn_params f = ["event"]
        ∧ (∀ event, call_function f [event] = handler_w_deps greet event)
        ∧ (∀ args w, length args ≠ 1%nat →
             ∃ msg, call_function f args w = Some (Raise (TypeError msg), w))).
Proof.
  split; eexists; (split; [reflexivity |]); (split; [reflexivity |]);
    (split; [reflexivity |]); intros args w Hlen; unfold call_function; simpl;
    (destruct (decide (length args = 1%nat)); [done | by eexists]).
Qed.

End EntryPoints.

(** ** Repeated invocation *)

Lemma wire_value_weaken h h' v : h ⊆ h' → wire_value h v → wire_value h' v.
Proof. intros Hsub [j Hj]. exists j. by eapply represents_weaken. Qed.

Lemma answers_outcome h r a :
  answers h r a → ∃ o w', r = Some (o, w') ∧ h ⊆ w_heap w'.
Proof.
  destruct a as [j | e]; simpl.
  - intros (v & w' & -> & Hsub & _). by eexists _, _.
  - intros (w' & -> & Hsub). by eexists _, _.
Qed.

Lemma invoke_all_extends (f : val → M val) :
  (∀ w e, wire_value (w_heap w) e →
          ∃ o w', f e w = Some (o, w') ∧ w_heap w ⊆ w_heap w') →
  ∀ events w,
    Forall (wire_value (w_heap w)) events →
    ∃ w', invoke_all f events w = Some w' ∧ w_heap w ⊆ w_heap w'.
Proof.
  intros Hf events. induction events as [| e events IH]; intros w Hall.
  - by exists w.
  - inversion Hall as [| ? ? He Hrest]; subst. simpl.
    destruct (Hf w e He) as (o & w1 & -> & Hsub).
    destruct (IH w1) as (w2 & -> & Hsub2).
    + eapply Forall_impl; [exact Hrest |]. intros v. by apply wire_value_weaken.
    + exists w2. split; [done |]. by etrans.
Qed.

(** A handler whose answer to every wire event is determined by the event
    is repeatable. *)
Lemma function_of_event_repeatable (f : val → M val) (F : json → outcome json) :
  function_of_event f F → repeatable f F.
Proof.
  intros Hf w e1 between e2 j He1 He2 Hbetween.
  pose proof (Hf w j e1 He1) as Hans1.
  destruct (answers_outcome _ _ _ Hans1) as (o1 & w1 & Hrun1 & Hsub1).
  destruct (invoke_all_extends f) with (events := between) (w := w1)
    as (w2 & Hrun & Hsub2).
  { intros w0 e [j0 Hj0]. exact (answers_outcome _ _ _ (Hf w0 j0 e Hj0)). }
  { eapply Forall_impl; [exact Hbetween |]. intros v. by apply wire_value_weaken. }
  exists o1, w1, w2. split; [exact Hrun1 |]. split; [exact Hans1 |].
  split; [exact Hrun |]. split; [exact Hsub2 |].
  apply Hf. eapply represents_weaken; [| exact He2]. by etrans.
Qed.

Lemma handler_w_deps_pure greet g :
  pure_dep greet g →
  function_of_event (handler_w_deps greet)
    (λ j, Ret (handler_w_deps_reply g j)).
Proof.
  intros Hpure w j event Hrep. destruct (type_name_represents _ _ _ Hrep) as [t Ht].
  simpl. rewrite (handler_w_deps_unfold greet event w t Ht). simpl.
  destruct (Hpure _ _ _ (name_of_passed _ _ _ Hrep)) as (r & h' & -> & Hsub & Hr).
  destruct (message_reply_returns h'
              (w_calls w ++ [name_of (w_heap w) VNone event]) _ r Hr)
    as (v & w' & Heq & Hv).
  exists v, w'. split; [exact Heq |]. split; [| exact Hv].
  etrans; [exact Hsub |]. by eapply message_reply_frame.
Qed.

Section Repeated.
Context `{Runtime}.

Lemma handler_function_of_event : function_of_event handler handler_reply.
Proof.
  intros w j event Hrep. rewrite (handler_wire w j event Hrep).
  unfold handler_reply. destruct (json_str (greeted_name j)) as [s | e]; simpl.
  - destruct (message_reply_returns (w_heap w) (w_calls w)
                (JStr ("Hello, " +:+ s +:+ "!"))
                (VStr ("Hello, " +:+ s +:+ "!")))
      as (v & w' & Heq & Hv); [constructor |].
    exists v, w'. split; [exact Heq |]. split; [| exact Hv].
    by eapply message_reply_frame.
  - by exists w.
Qed.

(** C6 — each handler is a function of its event (and of the greeter, when
    that is itself a fixed function): in whatever world it is invoked,
    after however many invocations, its outcome is determined by the
    event's wire value, so two invocations on equal events have equal
    results (equal replies, or the same error) whatever was invoked in
    between; and every invocation leaves each object that existed as it
    was, so none sees a change left by another. *)
Theorem handlers_are_functions_of_the_event greet g :
  pure_dep greet g →
  (function_of_event handler handler_reply
   ∧ repeatable handler handler_reply)
  ∧ (function_of_event (handler_w_deps greet)
       (λ j, Ret (handler_w_deps_reply g j))
     ∧ repeatable (handler_w_deps greet)
         (λ j, Ret (handler_w_deps_reply g j))).
Proof.
  intros Hpure. split; split.
  - apply handler_function_of_event.
  - apply function_of_event_repeatable, handler_function_of_event.
  - by apply handler_w_deps_pure.
  - by apply function_of_event_repeatable, handler_w_deps_pure.
Qed.

End Repeated.

Lemma greet_hi_pure : pure_dep greet_hi greet_hi_wire.
Proof.
  intros h j v Hrep. exists (match v with
                             | VStr s => VStr ("Hi, " +:+ s)
                             | _ => VStr "Hi, World"
                             end), h.
  split; [by destruct v |]. split; [done |].
  inversion Hrep; subst; constructor.
Defined.

Lemma handlers_are_functions_of_the_event_witness :
  pure_dep greet_hi greet_hi_wire ∧
  represents (w_heap ada_world) (JObj [("name", JStr "Ada")]) ada_event ∧
  Forall (wire_value (w_heap ada_world)) [VNone; VInt 7] ∧
  (∃ o1 w1 w2,
     @handler example_runtime ada_event ada_world = Some (o1, w1)
     ∧ answers (w_heap ada_world)
         (@handler example_runtime ada_event ada_world)
         (Ret (message "Hello, Ada!"))
     ∧ invoke_all (@handler example_runtime) [VNone; VInt 7] w1 = Some w2
     ∧ w_heap w1 ⊆ w_heap w2
     ∧ answers (w_heap w2) (@handler example_runtime ada_event w2)
         (Ret (message "Hello, Ada!"))) ∧
  (∃ o1 w1 w2,
     handler_w_deps greet_hi ada_event ada_world = Some (o1, w1)
     ∧ answers (w_heap ada_world)
         (handler_w_deps greet_hi ada_event ada_world)
         (Ret (message "Hi, Ada"))
     ∧ invoke_all (handler_w_deps greet_hi) [VNone; VInt 7] w1 = Some w2
     ∧ w_heap w1 ⊆ w_heap w2
     ∧ answers (w_heap w2) (handler_w_deps greet_hi ada_event w2)
         (Ret (message "Hi, Ada"))).
Proof.
  assert (Hrep : represents (w_heap ada_world)
                   (JObj [("name", JStr "Ada")]) ada_event).
  { eapply rep_obj; [reflexivity |]. repeat constructor. }
  assert (Hwire : Forall (wire_value (w_heap ada_world)) [VNone; VInt 7]).
  { repeat constructor; eexists; constructor. }
  split; [exact greet_hi_pure |]. split; [exact Hrep |].
  split; [exact Hwire |]. split.
  - exact (proj2 (proj1 (@handlers_are_functions_of_the_event example_runtime
                           greet_hi greet_hi_wire greet_hi_pure))
             ada_world ada_event [VNone; VInt 7] ada_event _ Hrep Hrep Hwire).
  - exact (proj2 (proj2 (@handlers_are_functions_of_the_event example_runtime
                           greet_hi greet_hi_wire greet_hi_pure))
             ada_world ada_event [VNone; VInt 7] ada_event _ Hrep Hrep Hwire).
Defined.


(** ** The name each handler uses *)

Lemma handler_w_deps_on_dict greet w l entries :
  w_heap w !! l = Some (ODict entries) →
  handler_w_deps greet (VRef l) w
  = match greet (default VNone (dict_lookup "name" entries)) (w_heap w) with
    | Some (Ret r, h') =>
        message_reply h'
          (w_calls w ++ [default VNone (dict_lookup "name" entries)]) r
    | Some (Raise e, h') =>
        Some (Raise e,
              World h' (w_calls w ++ [default VNone (dict_lookup "name" entries)]))
    | None => None
    end.
Proof.
  intros Hl.
  assert (Ht : type_name (w_heap w) (VRef l) = Some "dict") by (simpl; by rewrite Hl).
  rewrite (handler_w_deps_unfold greet (VRef l) w _ Ht). simpl. by rewrite Hl.
Qed.

(** C8 — on a mapping event the dependency-using handler calls [greet]
    once, with the value stored under ["name"] as it is (whatever its
    type) or with [None] when the key is absent, and replies
    [{"message": greet(v)}]: its outcome is that of the call, wrapped in
    the reply dict when the call returns, and the trace of calls grows by
    exactly that one argument. *)
Theorem handler_w_deps_passes_name_through greet w l entries :
  w_heap w !! l = Some (ODict entries) →
  handler_w_deps greet (VRef l) w
  = match greet (default VNone (dict_lookup "name" entries)) (w_heap w) with
    | Some (Ret r, h') =>
        message_reply h'
          (w_calls w ++ [default VNone (dict_lookup "name" entries)]) r
    | Some (Raise e, h') =>
        Some (Raise e,
              World h' (w_calls w ++ [default VNone (dict_lookup "name" entries)]))
    | None => None
    end
  ∧ (∀ o w', handler_w_deps greet (VRef l) w = Some (o, w') →
       w_calls w' = w_calls w ++ [default VNone (dict_lookup "name" entries)]).
Proof.
  intros Hl. rewrite (handler_w_deps_on_dict greet w l entries Hl).
  split; [reflexivity |].
  intros o w'. destruct (greet _ _) as [[[r | e] h'] |]; [| | done].
  - unfold message_reply. by intros [= <- <-].
  - by intros [= <- <-].
Qed.

Lemma handler_w_deps_passes_name_through_witness :
  w_heap ada_world !! 1%positive = Some (ODict [("name", VStr "Ada")]) ∧
  ∀ o w', handler_w_deps greet_hi ada_event ada_world = Some (o, w') →
          w_calls w' = [VStr "Ada"].
Proof.
  assert (Hl : w_heap ada_world !! 1%positive
               = Some (ODict [("name", VStr "Ada")])) by reflexivity.
  split; [exact Hl |].
  exact (proj2 (handler_w_deps_passes_name_through greet_hi ada_world
                  1%positive _ Hl)).
Defined.

Section Names.
Context `{Runtime}.

(** C9 (amended) — in the no-dependency handler the ["World"] default
    stands in for an absent key only.  A value stored under ["name"] is
    never replaced by it: [None] gives ["Hello, None!"]; in general the
    handler returns the message carrying the text of the stored value
    when that value has a text, and raises the error of the rendering
    when it has none. *)
Theorem handler_renders_present_name w l entries :
  w_heap w !! l = Some (ODict entries) →
  (dict_lookup "name" entries = Some VNone →
   handler (VRef l) w
   = message_reply (w_heap w) (w_calls w) (VStr "Hello, None!")) ∧
  (∀ v s, dict_lookup "name" entries = Some v →
          py_str (w_heap w) v = Some (Ret s) →
          handler (VRef l) w
          = message_reply (w_heap w) (w_calls w)
              (VStr ("Hello, " +:+ s +:+ "!"))) ∧
  (∀ v e, dict_lookup "name" entries = Some v →
          py_str (w_heap w) v = Some (Raise e) →
          handler (VRef l) w = Some (Raise e, w)) ∧
  (dict_lookup "name" entries = None →
   handler (VRef l) w
   = message_reply (w_heap w) (w_calls w) (VStr "Hello, World!")) ∧
  (∀ ms jn, represents (w_heap w) (JObj ms) (VRef l) →
            json_field "name" ms = Some jn →
            handler (VRef l) w
            = match json_str jn with
              | Ret s =>
                  message_reply (w_heap w) (w_calls w)
                    (VStr ("Hello, " +:+ s +:+ "!"))
              | Raise e => Some (Raise e, w)
              end).
Proof.
  intros Hl.
  assert (Ht : type_name (w_heap w) (VRef l) = Some "dict") by (simpl; by rewrite Hl).
  split; [| split; [| split; [| split]]].
  - rewrite (handler_unfold (VRef l) w _ Ht). simpl. rewrite Hl.
    intros ->. change (default (VStr "World") (Some VNone)) with VNone.
    by rewrite py_str_None.
  - rewrite (handler_unfold (VRef l) w _ Ht). simpl. rewrite Hl.
    intros v s -> Hs. simpl. by rewrite Hs.
  - rewrite (handler_unfold (VRef l) w _ Ht). simpl. rewrite Hl.
    intros v e -> Hs. simpl. by rewrite Hs.
  - rewrite (handler_unfold (VRef l) w _ Ht). simpl. rewrite Hl.
    intros ->. reflexivity.
  - intros ms jn Hrep Hjn. rewrite (handler_wire w _ _ Hrep). simpl.
    by rewrite Hjn.
Qed.

End Names.

Lemma handler_renders_present_name_witness :
  w_heap null_name_world !! 1%positive = Some (ODict [("name", VNone)]) ∧
  @handler example_runtime (VRef 1%positive) null_name_world
  = message_reply (w_heap null_name_world) [] (VStr "Hello, None!") ∧
  w_heap nested_world !! 1%positive
  = Some (ODict [("name", VRef 2%positive); ("x", VInt (-5))]) ∧
  @handler example_runtime (VRef 1%positive) nested_world
  = message_reply (w_heap nested_world) []
      (VStr "Hello, [0, 'a', {'k': None}, True]!") ∧
  @handler shallow_runtime (VRef 1%positive) nested_world
  = Some (Raise (RecursionError
                   "maximum recursion depth exceeded while getting the repr of an object"),
          nested_world).
Proof.
  assert (Hl : w_heap null_name_world !! 1%positive
               = Some (ODict [("name", VNone)])) by reflexivity.
  assert (Hn : w_heap nested_world !! 1%positive
               = Some (ODict [("name", VRef 2%positive); ("x", VInt (-5))]))
    by reflexivity.
  split; [exact Hl |]. split; [| split; [exact Hn | split]].
  - exact (proj1 (@handler_renders_present_name example_runtime
                    null_name_world 1%positive _ Hl) eq_refl).
  - exact (proj1 (proj2 (@handler_renders_present_name example_runtime
                           nested_world 1%positive _ Hn))
             (VRef 2%positive) "[0, 'a', {'k': None}, True]"
             eq_refl eq_refl).
  - exact (proj1 (proj2 (proj2 (@handler_renders_present_name shallow_runtime
                                  nested_world 1%positive _ Hn)))
             (VRef 2%positive) _ eq_refl eq_refl).
Defined.

(** C9, as stated, fails in its general part: the integer [10 ** 4300]
    stored under ["name"] is not rendered into any message; the handler
    raises a [ValueError]. *)
Lemma handler_cannot_render_big_int_name :
  w_heap big_int_world !! 1%positive = Some (ODict [("name", VInt big_int)]) ∧
  dict_lookup "name" [("name", VInt big_int)] = Some (VInt big_int) ∧
  @handler example_runtime (VRef 1%positive) big_int_world
  = Some (Raise (ValueError "Exceeds the limit for integer string conversion"),
          big_int_world) ∧
  ¬ ∃ text, @handler example_runtime (VRef 1%positive) big_int_world
            = message_reply (w_heap big_int_world) [] (VStr text).
Proof.
  split; [reflexivity |]. split; [reflexivity |].
  split; [exact handler_on_big_int_name |].
  intros [text Heq]. rewrite handler_on_big_int_name in Heq. discriminate Heq.
Qed.

(** ** The event is only read *)

Lemma json_field_size key ms j :
  json_field key ms = Some j → (json_size j < json_size (JObj ms))%nat.
Proof.
  intros Hf. apply (json_size_member (key, j)).
  induction ms as [| [k j'] ms IH]; simpl in Hf; [done |].
  destruct (String.eqb k key) eqn:Hk.
  - apply String.eqb_eq in Hk. simplify_eq. left.
  - right. auto.
Qed.

Lemma dict_lookup_child key entries v :
  dict_lookup key entries = Some v → v ∈ children (ODict entries).
Proof.
  simpl. induction entries as [| [k v'] entries IH]; simpl; [done |].
  destruct (String.eqb k key); intros Hv.
  - simplify_eq. left.
  - right. auto.
Qed.

(** Whatever is reachable from the Python form of a wire value is the
    Python form of a part of it. *)
Lemma reachable_represents h v l :
  reachable h v l →
  ∀ j, represents h j v →
       ∃ j', represents h j' (VRef l) ∧ (json_size j' ≤ json_size j)%nat.
Proof.
  induction 1 as [l | l o v l' Hl Hv Hreach IH]; intros j Hrep.
  - by exists j.
  - inversion Hrep as [| | | | | l0 items js Hl' Hitems | l0 entries ms Hl' Hms];
      subst; simplify_eq; simpl in Hv.
    + apply list_elem_of_lookup in Hv as [i Hi].
      destruct (Forall2_lookup_r _ _ _ _ _ Hitems Hi) as (ji & Hji & Hrepi).
      destruct (IH ji Hrepi) as (j' & Hj' & Hsz). exists j'. split; [done |].
      pose proof (json_size_item ji js (list_elem_of_lookup_2 _ _ _ Hji)). lia.
    + apply list_elem_of_fmap in Hv as ([k v'] & -> & He).
      apply list_elem_of_lookup in He as [i Hi].
      destruct (Forall2_lookup_r _ _ _ _ _ Hms Hi) as (m & Hm & _ & Hrepm).
      destruct (IH m.2 Hrepm) as (j' & Hj' & Hsz). exists j'. split; [done |].
      pose proof (json_size_member m ms (list_elem_of_lookup_2 _ _ _ Hm)). lia.
Qed.

(** The name taken out of a wire mapping gives no access to the mapping
    itself. *)
Lemma event_unreachable_from_name h j l entries fallback :
  represents h j (VRef l) →
  h !! l = Some (ODict entries) →
  (∀ l', ¬ reachable h fallback l') →
  ¬ reachable h (default fallback (dict_lookup "name" entries)) l.
Proof.
  intros Hrep Hl Hfb Hreach.
  inversion Hrep as [| | | | | | l0 entries' ms Hl' Hms]; subst; simplify_eq.
  pose proof (represents_lookup h ms entries "name" Hms) as Hfield.
  destruct (json_field "name" ms) as [jn |] eqn:Hjn.
  - destruct Hfield as (v & Hv & Hrepv). rewrite Hv in Hreach. simpl in Hreach.
    destruct (reachable_represents h v l Hreach jn Hrepv) as (j' & Hj' & Hsz).
    rewrite (represents_inj _ _ _ _ Hj' Hrep) in Hsz.
    pose proof (json_field_size _ _ _ Hjn). lia.
  - rewrite Hfield in Hreach. by eapply Hfb.
Qed.

Section Frame.
Context `{Runtime}.

(** C10 (amended) — the handlers themselves only read a mapping event.
    The no-dependency handler leaves every existing object as it was,
    whether it returns or raises.  The dependency-using handler writes
    nothing but its reply: every other object is as the call to the
    greeter left it, so the event is unchanged whenever the greeter did
    not change it — in particular for a wire event and a greeter that
    writes only to what it can reach from its argument, since the name
    taken out of a wire mapping gives no access to the mapping. *)
Theorem handlers_leave_event_unchanged greet w l entries :
  w_heap w !! l = Some (ODict entries) →
  (∀ o w', handler (VRef l) w = Some (o, w') →
           w_heap w ⊆ w_heap w'
           ∧ w_heap w' !! l = Some (ODict entries)) ∧
  (∀ o w', handler_w_deps greet (VRef l) w = Some (o, w') →
           ∃ o' h', greet (default VNone (dict_lookup "name" entries))
                          (w_heap w) = Some (o', h')
                    ∧ (∀ l', l' ≠ fresh (dom h') → w_heap w' !! l' = h' !! l')
                    ∧ (h' !! l = Some (ODict entries) →
                       w_heap w' !! l = Some (ODict entries))) ∧
  (∀ j o w', represents (w_heap w) j (VRef l) →
             writes_within greet →
             handler_w_deps greet (VRef l) w = Some (o, w') →
             w_heap w' !! l = Some (ODict entries)).
Proof.
  intros Hl.
  assert (Hdeps : ∀ o w',
            handler_w_deps greet (VRef l) w = Some (o, w') →
            ∃ o' h', greet (default VNone (dict_lookup "name" entries))
                           (w_heap w) = Some (o', h')
                     ∧ (∀ l', l' ≠ fresh (dom h') → w_heap w' !! l' = h' !! l')
                     ∧ (h' !! l = Some (ODict entries) →
                        w_heap w' !! l = Some (ODict entries))).
  { intros o w' Hrun.
    rewrite (handler_w_deps_on_dict greet w l entries Hl) in Hrun.
    destruct (greet _ _) as [[[r | e] h'] |] eqn:Hgreet; [| | done].
    - injection Hrun as <- <-. eexists _, h'. split; [reflexivity |]. simpl.
      split; [intros l' Hl'; by rewrite lookup_insert_ne |].
      intros Hkeep. rewrite lookup_insert_ne; [done |].
      intros Heq. rewrite <- Heq, fresh_unallocated in Hkeep. done.
    - injection Hrun as <- <-. eexists _, h'. split; [reflexivity |]. done. }
  split; [| split; [exact Hdeps |]].
  - intros o w' Hrun.
    assert (Hsub : w_heap w ⊆ w_heap w').
    { apply handler_outcome in Hrun as [(s & _ & Heq) | (e & _ & Heq)].
      - symmetry in Heq. by eapply message_reply_frame.
      - by injection Heq as -> ->. }
    split; [exact Hsub | by eapply lookup_weaken].
  - intros j o w' Hrep Hframe Hrun.
    destruct (Hdeps o w' Hrun) as (o' & h' & Hgreet & _ & Hkeep).
    apply Hkeep. rewrite <- Hl.
    eapply Hframe; [exact Hgreet | by eexists |].
    eapply event_unreachable_from_name; [exact Hrep | exact Hl |].
    intros l' Hr. inversion Hr.
Qed.

End Frame.

Lemma greet_hi_writes_within : writes_within greet_hi.
Proof.
  intros arg h o h' l Hrun _ _.
  destruct arg; simpl in Hrun; by injection Hrun as <- <-.
Defined.

Lemma handlers_leave_event_unchanged_witness :
  w_heap ada_world !! 1%positive = Some (ODict [("name", VStr "Ada")]) ∧
  represents (w_heap ada_world) (JObj [("name", JStr "Ada")]) ada_event ∧
  writes_within greet_hi ∧
  (∃ o w', @handler example_runtime ada_event ada_world = Some (o, w')
           ∧ w_heap ada_world ⊆ w_heap w'
           ∧ w_heap w' !! 1%positive = Some (ODict [("name", VStr "Ada")])) ∧
  (∃ o w', handler_w_deps greet_hi ada_event ada_world = Some (o, w')
           ∧ w_heap w' !! 1%positive = Some (ODict [("name", VStr "Ada")])).
Proof.
  assert (Hl : w_heap ada_world !! 1%positive
               = Some (ODict [("name", VStr "Ada")])) by reflexivity.
  assert (Hrep : represents (w_heap ada_world)
                   (JObj [("name", JStr "Ada")]) ada_event).
  { eapply rep_obj; [reflexivity |]. repeat constructor. }
  split; [exact Hl |]. split; [exact Hrep |].
  split; [exact greet_hi_writes_within |]. split.
  - destruct (@handler example_runtime ada_event ada_world)
      as [[o w'] |] eqn:Hrun; [| by vm_compute in Hrun].
    exists o, w'. split; [reflexivity |].
    exact (proj1 (@handlers_leave_event_unchanged example_runtime
                    greet_hi ada_world 1%positive _ Hl) o w' Hrun).
  - destruct (handler_w_deps greet_hi ada_event ada_world)
      as [[o w'] |] eqn:Hrun; [| by vm_compute in Hrun].
    exists o, w'. split; [reflexivity |].
    exact (proj2 (proj2 (@handlers_leave_event_unchanged example_runtime
                           greet_hi ada_world 1%positive _ Hl))
             _ o w' Hrep greet_hi_writes_within Hrun).
Defined.

(** C10, as stated, fails for the dependency-using handler: nothing in it
    keeps the greeter from writing to the event.  With a greeter that
    empties the dict at location 1, the event [{"name": "Ada"}] is empty
    after the invocation. *)
Lemma handler_w_deps_event_changed_by_greet :
  w_heap ada_world !! 1%positive = Some (ODict [("name", VStr "Ada")]) ∧
  ∃ v w', handler_w_deps greet_clobber ada_event ada_world = Some (Ret v, w')
          ∧ w_heap w' !! 1%positive = Some (ODict [])
          ∧ w_heap w' !! 1%positive ≠ w_heap ada_world !! 1%positive.
Proof.
  split; [reflexivity |].
  eexists _, _. split; [reflexivity |]. split; [reflexivity |].
  vm_compute. discriminate.
Qed.

(** ** Single-flight loading *)

Lemma lookup_update (cs : list caller) i k c c0 :
  cs !! i = Some c0 →
  <[i := c]> cs !! k = if decide (k = i) then Some c else cs !! k.
Proof.
  intros Hi. destruct (decide (k = i)) as [-> | Hne].
  - apply list_lookup_insert_eq. by eapply lookup_lt_Some.
  - by apply list_lookup_insert_ne.
Qed.

Ltac at_index k i :=
  destruct (decide (k = i)) as [-> | ?]; simplify_eq; try done; eauto.

Lemma step_inv s s' : loader_inv s → step s s' → loader_inv s'.
Proof.
  intros Hinv Hstep. unfold loader_inv in *.
  destruct Hstep as [s i Hi Hs | s i Hi Hs | s i r Hi Hs | s i r Hi | s i r Hi Hs];
    simpl.
  - rewrite Hs in Hinv. destruct Hinv as [-> Hall].
    rewrite Forall_lookup in Hall.
    split; [done |]. split.
    + exists i. rewrite !(lookup_update _ i _ _ _ Hi).
      split; [by rewrite decide_True |].
      intros k. rewrite (lookup_update _ i _ _ _ Hi).
      at_index k i. intros Hk. by specialize (Hall _ _ Hk).
    + intros k r. rewrite (lookup_update _ i _ _ _ Hi).
      at_index k i. intros Hk. by specialize (Hall _ _ Hk).
  - rewrite Hs in Hinv. destruct Hinv as (Hatt & (j & Hj & Huniq) & Hnone).
    split; [done |]. split.
    + exists j. rewrite (lookup_update _ i _ _ _ Hi).
      split; [at_index j i |].
      intros k. rewrite (lookup_update _ i _ _ _ Hi). at_index k i.
    + intros k r. rewrite (lookup_update _ i _ _ _ Hi). at_index k i.
  - rewrite Hs in Hinv. destruct Hinv as (Hatt & Hnone & Hsame).
    split; [done |]. split.
    + intros k. rewrite (lookup_update _ i _ _ _ Hi). at_index k i.
    + intros k r'. rewrite (lookup_update _ i _ _ _ Hi). at_index k i.
      by intros [= ->].
  - destruct (l_slot s) as [| | r0].
    + destruct Hinv as [_ Hall]. rewrite Forall_lookup in Hall.
      by specialize (Hall _ _ Hi).
    + destruct Hinv as (Hatt & (j & Hj & Huniq) & Hnone).
      split; [done |]. split.
      * intros k. rewrite (lookup_update _ i _ _ _ Hi). at_index k i.
        intros Hk. apply Huniq in Hk. apply Huniq in Hi. congruence.
      * intros k r'. rewrite (lookup_update _ i _ _ _ Hi). at_index k i.
        { by intros [= ->]. }
        intros Hk. by apply Hnone in Hk.
    + destruct Hinv as (_ & Hnone & _). by apply Hnone in Hi.
  - rewrite Hs in Hinv. destruct Hinv as (Hatt & Hnone & Hsame).
    split; [done |]. split.
    + intros k. rewrite (lookup_update _ i _ _ _ Hi). at_index k i.
    + intros k r'. rewrite (lookup_update _ i _ _ _ Hi). at_index k i.
      by intros [= ->].
Qed.

Lemma step_length s s' :
  step s s' → length (l_callers s') = length (l_callers s).
Proof. destruct 1; simpl; apply length_insert. Qed.

Lemma rank_update (cs : list caller) i c c0 :
  cs !! i = Some c0 →
  (list_sum (rank <$> <[i := c]> cs) + rank c0
   = list_sum (rank <$> cs) + rank c)%nat.
Proof.
  revert i. induction cs as [| c1 cs IH]; intros [| i] Hi; simplify_eq/=.
  - lia.
  - specialize (IH i Hi). lia.
Qed.

Lemma step_advance s s' : step s s' → (advance s < advance s')%nat.
Proof.
  unfold advance.
  destruct 1 as [s i Hi Hs | s i Hi Hs | s i r Hi Hs | s i r Hi | s i r Hi Hs];
    [pose proof (rank_update (l_callers s) i Loading _ Hi) as Hsum
    | pose proof (rank_update (l_callers s) i Waiting _ Hi) as Hsum
    | pose proof (rank_update (l_callers s) i (Finished r) _ Hi) as Hsum
    | pose proof (rank_update (l_callers s) i (Finished r) _ Hi) as Hsum
    | pose proof (rank_update (l_callers s) i (Finished r) _ Hi) as Hsum];
    simpl in *; lia.
Qed.

Lemma advance_bound s : (advance s ≤ 2 * length (l_callers s))%nat.
Proof.
  unfold advance. induction (l_callers s) as [| c cs IH]; csimpl; [lia |].
  destruct c; csimpl; lia.
Qed.

Lemma run_inv k s s' :
  nsteps step k s s' →
  loader_inv s →
  loader_inv s'
  ∧ length (l_callers s') = length (l_callers s)
  ∧ (advance s + k ≤ advance s')%nat.
Proof.
  induction 1 as [s | k s s1 s' Hstep Hrun IH]; intros Hinv.
  - split; [done |]. split; [done | lia].
  - destruct (IH (step_inv _ _ Hinv Hstep)) as (Hinv' & Hlen & Hadv).
    split; [done |]. split.
    + rewrite Hlen. by apply step_length.
    + pose proof (step_advance _ _ Hstep). lia.
Qed.

Lemma initial_inv n : loader_inv (initial n).
Proof.
  unfold loader_inv, initial. simpl. split; [done |].
  apply Forall_forall. intros c Hc. by apply elem_of_replicate in Hc as [-> _].
Qed.

Lemma loader_progress s : loader_inv s → ¬ all_served s → ∃ s', step s s'.
Proof.
  intros Hinv Hnot. unfold all_served in Hnot.
  apply not_Forall_Exists in Hnot; [| intros c; apply _].
  apply Exists_exists in Hnot as (c & Hc & Hfin).
  apply list_elem_of_lookup in Hc as [i Hi].
  unfold loader_inv in Hinv. simpl in Hfin.
  destruct c as [| | | r]; [| | | by destruct Hfin].
  - destruct (l_slot s) as [| | r] eqn:Hs.
    + eexists. by eapply step_claim.
    + eexists. by eapply step_join.
    + eexists. by eapply step_hit.
  - eexists. eapply (step_publish s i (LoadOk 0)). done.
  - destruct (l_slot s) as [| | r] eqn:Hs.
    + destruct Hinv as [_ Hall]. rewrite Forall_lookup in Hall.
      by specialize (Hall _ _ Hi).
    + destruct Hinv as (_ & (j & Hj & _) & _).
      eexists. eapply (step_publish s j (LoadOk 0)). done.
    + eexists. by eapply step_wake.
Qed.

Lemma served_same s :
  loader_inv s → all_served s → (0 < length (l_callers s))%nat →
  l_attempts s = 1%nat
  ∧ ∃ r, l_callers s = replicate (length (l_callers s)) (Finished r).
Proof.
  intros Hinv Hall Hlen. unfold all_served in Hall.
  rewrite Forall_lookup in Hall. unfold loader_inv in Hinv.
  destruct (l_callers s) as [| c cs] eqn:Hcs; [simpl in Hlen; lia |].
  rewrite <- Hcs in *.
  assert (H0 : l_callers s !! 0%nat = Some c) by (by rewrite Hcs).
  pose proof (Hall _ _ H0) as Hc. destruct c as [| | | r0]; try done.
  destruct (l_slot s) as [| | r].
  - destruct Hinv as [_ Hns]. rewrite Forall_lookup in Hns.
    by specialize (Hns _ _ H0).
  - destruct Hinv as (_ & _ & Hnone). by apply Hnone in H0.
  - destruct Hinv as (Hatt & _ & Hsame). split; [done |]. exists r.
    apply list_eq. intros k.
    destruct (l_callers s !! k) as [c |] eqn:Hk.
    + pose proof (Hall _ _ Hk) as Hfin. destruct c as [| | | r']; try done.
      rewrite (Hsame _ _ Hk). symmetry. apply lookup_replicate_2.
      by eapply lookup_lt_Some.
    + symmetry. apply lookup_replicate_None. by apply lookup_ge_None.
Qed.

(** C7 — single-flight loading, in every interleaving of [n] callers
    asking for the same function: at most one load attempt is ever made,
    and exactly one as soon as any caller has asked; all callers that have
    a result have the same one, be it the artifact or the failure, and
    once all are served they all hold that one result; a run never gets
    stuck before every caller is served, and it cannot go on for more than
    [2 * n] steps. *)
Theorem single_flight_loading n k s :
  nsteps step k (initial n) s →
  length (l_callers s) = n
  ∧ (l_attempts s ≤ 1)%nat
  ∧ (∀ i i' r r', l_callers s !! i = Some (Finished r) →
                  l_callers s !! i' = Some (Finished r') → r = r')
  ∧ (∀ i c, l_callers s !! i = Some c → c ≠ NotStarted →
              l_attempts s = 1%nat)
  ∧ (all_served s → (0 < n)%nat →
       l_attempts s = 1%nat ∧ ∃ r, l_callers s = replicate n (Finished r))
  ∧ (¬ all_served s → ∃ s', step s s')
  ∧ (k ≤ 2 * n)%nat.
Proof.
  intros Hrun.
  destruct (run_inv _ _ _ Hrun (initial_inv n)) as (Hinv & Hlen & Hadv).
  simpl in Hlen. rewrite length_replicate in Hlen.
  split; [done |]. split; [| split; [| split; [| split; [| split]]]].
  - unfold loader_inv in Hinv. destruct (l_slot s); destruct Hinv as [-> _]; lia.
  - intros i i' r r' Hi Hi'. unfold loader_inv in Hinv.
    destruct (l_slot s) as [| | r0].
    + destruct Hinv as [_ Hall]. rewrite Forall_lookup in Hall.
      by specialize (Hall _ _ Hi).
    + destruct Hinv as (_ & _ & Hnone). by apply Hnone in Hi.
    + destruct Hinv as (_ & _ & Hsame).
      by rewrite (Hsame _ _ Hi), (Hsame _ _ Hi').
  - intros i c Hi Hc. unfold loader_inv in Hinv.
    destruct (l_slot s) as [| | r0]; [| by destruct Hinv | by destruct Hinv].
    destruct Hinv as [_ Hall]. rewrite Forall_lookup in Hall.
    by specialize (Hall _ _ Hi).
  - intros Hall Hn. rewrite <- Hlen. apply served_same; [done | done | lia].
  - by apply loader_progress.
  - pose proof (advance_bound s). lia.
Qed.

Lemma single_flight_loading_witness :
  nsteps step 4 (initial 2)
    (Loader (Done (LoadFailed "syntax error")) 1
       [Finished (LoadFailed "syntax error");
        Finished (LoadFailed "syntax error")])
  ∧ (1 ≤ 1)%nat.
Proof.
  assert (Hrun : nsteps step 4 (initial 2)
            (Loader (Done (LoadFailed "syntax error")) 1
               [Finished (LoadFailed "syntax error");
                Finished (LoadFailed "syntax error")])).
  { eapply nsteps_l; [apply (step_claim (initial 2) 0); reflexivity |].
    eapply nsteps_l; [apply (step_join _ 1); reflexivity |].
    eapply nsteps_l;
      [apply (step_publish _ 0 (LoadFailed "syntax error")); reflexivity |].
    eapply nsteps_l;
      [apply (step_wake _ 1 (LoadFailed "syntax error")); reflexivity |].
    apply nsteps_O. }
  split; [exact Hrun |].
  exact (proj1 (proj2 (single_flight_loading 2 4 _ Hrun))).
Defined.

(** ** Worked evaluations *)

Example repr_int_samples :
  repr_int 0 = "0" ∧ repr_int 42 = "42" ∧ repr_int (-5) = "-5".
Proof. repeat split; reflexivity. Qed.

Example get_on_str_raises :
  method_get (VStr "not-a-mapping") "name" VNone empty_world
  = Some (Raise (AttributeError "'str' object has no attribute 'get'"),
          empty_world).
Proof. reflexivity. Qed.

Example except_catches_exception_only :
  try_except (raise (AttributeError "no attribute")) (λ _, mret VNone)
    empty_world
  = Some (Ret VNone, empty_world)
  ∧ try_except (raise (BaseExceptionOnly "KeyboardInterrupt"))
      (λ _, mret VNone) empty_world
    = Some (Raise (BaseExceptionOnly "KeyboardInterrupt"), empty_world).
Proof. split; reflexivity. Qed.

Example handler_on_nested_name :
  @handler example_runtime (VRef 1%positive) nested_world
  = message_reply (w_heap nested_world) []
      (VStr "Hello, [0, 'a', {'k': None}, True]!").
Proof. vm_compute. reflexivity. Qed.

Example handler_on_cyclic_name :
  @handler example_runtime (VRef 1%positive) cyclic_world
  = message_reply (w_heap cyclic_world) []
      (VStr "Hello, [12, [...], {'name': [...]}]!").
Proof. vm_compute. reflexivity. Qed.

Example handler_on_number :
  @handler example_runtime (VInt 7) empty_world
  = message_reply ∅ [] (VStr "Hello, World!").
Proof. vm_compute. reflexivity. Qed.

Example handler_w_deps_on_number :
  handler_w_deps greet_hi (VInt 7) empty_world
  = message_reply ∅ [VNone] (VStr "Hi, World").
Proof. vm_compute. reflexivity. Qed.

Example handler_w_deps_on_nested_name :
  handler_w_deps greet_hi (VRef 1%positive) nested_world
  = message_reply (w_heap nested_world) [VRef 2%positive] (VStr "Hi, World").
Proof. vm_compute. reflexivity. Qed.

Example handler_on_name_nested_too_deep :
  @handler shallow_runtime (VRef 1%positive) nested_world
  = Some (Raise (RecursionError
                   "maximum recursion depth exceeded while getting the repr of an object"),
          nested_world).
Proof. vm_compute. reflexivity. Qed.

Example handler_on_flat_list_within_budget :
  @handler shallow_runtime (VRef 2%positive) cyclic_world
  = message_reply (w_heap cyclic_world) [] (VStr "Hello, World!").
Proof. vm_compute. reflexivity. Qed.

(** * Further properties of the handlers *)

(** ** Closed stores *)

Lemma allocated_type_name h v :
  allocated h v = true ↔ is_Some (type_name h v).
Proof.
  destruct v as [| b | z | f | s | l]; simpl; try (split; eauto; fail).
  rewrite bool_decide_eq_true.
  destruct (h !! l) as [[items | entries] |]; split; eauto;
    intros [x Hx]; done.
Qed.

Lemma closed_child h l o v :
  closed h → h !! l = Some o → v ∈ children o → allocated h v = true.
Proof.
  intros Hc Hl Hv. specialize (Hc l o Hl). simpl in Hc.
  rewrite forallb_forall in Hc. apply Hc. by apply list_elem_of_In.
Qed.

Lemma name_of_allocated h fallback event :
  closed h → allocated h fallback = true →
  allocated h (name_of h fallback event) = true.
Proof.
  intros Hc Hfb. destruct event as [| b | z | f | s | l]; simpl; try done.
  destruct (h !! l) as [[items | entries] |] eqn:Hl; try done.
  destruct (dict_lookup "name" entries) as [v |] eqn:Hv; simpl; [| done].
  eapply closed_child; [done | exact Hl |]. by eapply dict_lookup_child.
Qed.

Lemma allocated_weaken h h' v :
  h ⊆ h' → allocated h v = true → allocated h' v = true.
Proof.
  intros Hsub. destruct v as [| b | z | f | s | l]; simpl; try done.
  rewrite !bool_decide_eq_true. intros [o Ho]. exists o.
  by eapply lookup_weaken.
Qed.

(** Allocating a dict whose values are allocated keeps the store closed. *)
Lemma closed_alloc h entries :
  closed h →
  Forall (λ v, allocated h v = true) entries.*2 →
  closed (<[fresh (dom h) := ODict entries]> h).
Proof.
  intros Hc Hall l o Hl. simpl.
  apply forallb_forall. intros v Hv%list_elem_of_In.
  apply (allocated_weaken h); [apply alloc_extends |].
  apply lookup_insert_Some in Hl as [[<- <-] | [Hne Hl]].
  - rewrite Forall_forall in Hall. by apply Hall.
  - by eapply closed_child.
Qed.


Section Totality.
Context `{Runtime}.




(** X2 — both handlers keep the store closed: after an invocation on a
    closed store every reference still points to a live object, the reply
    included; for [handler-w-deps.py] this holds with a greeter that itself
    keeps the store closed. *)
Theorem handlers_keep_store_closed greet event w :
  closed (w_heap w) →
  allocated (w_heap w) event = true →
  keeps_closed greet →
  (∀ o w', handler event w = Some (o, w') →
           closed (w_heap w')
           ∧ match o with Ret r => allocated (w_heap w') r = true
                        | Raise _ => True end) ∧
  (∀ o w', handler_w_deps greet event w = Some (o, w') →
           closed (w_heap w')
           ∧ match o with Ret r => allocated (w_heap w') r = true
                        | Raise _ => True end).
Proof.
  intros Hc Hev Hgreet. split; intros o w' Hrun.
  - apply handler_outcome in Hrun as [(s & _ & [= -> ->]) | (e & _ & [= -> ->])].
    + simpl. split.
      * apply closed_alloc; [done |]. by repeat constructor.
      * apply bool_decide_eq_true. rewrite lookup_insert_eq. by eexists.
    + done.
  - apply allocated_type_name in Hev as [t Ht].
    rewrite (handler_w_deps_unfold greet event w t Ht) in Hrun. simpl in Hrun.
    destruct (greet _ _) as [[[r | e] h'] |] eqn:Hg; [| | done].
    + destruct (Hgreet _ _ _ _ Hc (name_of_allocated _ VNone event Hc eq_refl) Hg)
        as [Hc' Hr].
      injection Hrun as <- <-. simpl. split.
      * apply closed_alloc; [done |]. by repeat constructor.
      * apply bool_decide_eq_true. rewrite lookup_insert_eq. by eexists.
    + destruct (Hgreet _ _ _ _ Hc (name_of_allocated _ VNone event Hc eq_refl) Hg)
        as [Hc' _].
      by injection Hrun as <- <-.
Qed.

End Totality.

Lemma cyclic_world_closed : closed (w_heap cyclic_world).
Proof. unfold closed. apply (bool_decide_unpack _). vm_compute. exact I. Defined.


Lemma greet_echo_keeps_closed : keeps_closed greet_echo.
Proof.
  intros arg h o h' Hc Harg [= <- <-]. by split.
Defined.

Lemma handlers_keep_store_closed_witness :
  closed (w_heap cyclic_world) ∧
  allocated (w_heap cyclic_world) (VRef 1%positive) = true ∧
  keeps_closed greet_echo ∧
  ∀ o w', handler_w_deps greet_echo (VRef 1%positive) cyclic_world
          = Some (o, w') →
          closed (w_heap w')
          ∧ match o with Ret r => allocated (w_heap w') r = true
                       | Raise _ => True end.
Proof.
  split; [exact cyclic_world_closed |]. split; [reflexivity |].
  split; [exact greet_echo_keeps_closed |].
  exact (proj2 (@handlers_keep_store_closed example_runtime greet_echo
                  (VRef 1%positive) cyclic_world cyclic_world_closed eq_refl
                  greet_echo_keeps_closed)).
Defined.

(** ** What an invocation allocates *)

Section Allocation.
Context `{Runtime}.


(** X4 — invocations of [handler.py] compose: a run of [n] invocations
    adds at most [n] objects to the store (one for each invocation that
    returned, none for one that raised), changes none that existed and
    calls no dependency; and two successive invocations that return give
    different objects, the second leaving the first reply as it was. *)
Theorem handler_invocations_accumulate events w w' :
  invoke_all handler events w = Some w' →
  (size (w_heap w) ≤ size (w_heap w') ≤ size (w_heap w) + length events)%nat
  ∧ w_heap w ⊆ w_heap w'
  ∧ w_calls w' = w_calls w
  ∧ (∀ e1 e2 v1 v2 wa wb,
       handler e1 w' = Some (Ret v1, wa) →
       handler e2 wa = Some (Ret v2, wb) →
       v1 ≠ v2
       ∧ ∀ l, v1 = VRef l → w_heap wb !! l = w_heap wa !! l).
Proof.
  intros Hrun. split; [| split; [| split]].
  - revert w Hrun. induction events as [| e events IH]; intros w Hrun; simpl in *.
    + injection Hrun as <-. lia.
    + destruct (handler e w) as [[o w1] |] eqn:He; [| done].
      specialize (IH _ Hrun).
      apply handler_outcome in He as [(s & _ & [= -> ->]) | (ex & _ & [= -> ->])].
      * simpl in IH.
        rewrite map_size_insert_None in IH by apply fresh_unallocated. lia.
      * lia.
  - revert w Hrun. induction events as [| e events IH]; intros w Hrun; simpl in *.
    + by injection Hrun as <-.
    + destruct (handler e w) as [[o w1] |] eqn:He; [| done].
      etrans; [| exact (IH _ Hrun)].
      apply handler_outcome in He as [(s & _ & [= -> ->]) | (ex & _ & [= -> ->])];
        [apply alloc_extends | done].
  - revert w Hrun. induction events as [| e events IH]; intros w Hrun; simpl in *.
    + by injection Hrun as <-.
    + destruct (handler e w) as [[o w1] |] eqn:He; [| done].
      rewrite (IH _ Hrun).
      by apply handler_outcome in He
        as [(s & _ & [= -> ->]) | (ex & _ & [= -> ->])].
  - intros e1 e2 v1 v2 wa wb H1 H2.
    apply handler_outcome in H1 as [(s1 & _ & [= -> ->]) | (ex & _ & [=])].
    apply handler_outcome in H2 as [(s2 & _ & [= -> ->]) | (ex & _ & [=])].
    simpl.
    set (l1 := fresh (dom (w_heap w'))).
    set (h1 := <[l1 := ODict [("message", VStr ("Hello, " +:+ s1 +:+ "!"))]]>
                 (w_heap w')).
    assert (Hne : l1 ≠ fresh (dom h1)).
    { intros Heq. apply (is_fresh (dom h1)). rewrite <- Heq.
      apply elem_of_dom. unfold h1. rewrite lookup_insert_eq. by eexists. }
    split; [congruence |]. intros l [= <-]. by apply lookup_insert_ne.
Qed.

End Allocation.


Lemma handler_invocations_accumulate_witness :
  ∃ w', invoke_all (@handler example_runtime)
          [ada_event; VNone; ada_event] ada_world = Some w'
        ∧ (1 ≤ size (w_heap w') ≤ 4)%nat.
Proof.
  destruct (invoke_all (@handler example_runtime)
              [ada_event; VNone; ada_event] ada_world) as [w' |] eqn:Hrun;
    [| by vm_compute in Hrun].
  exists w'. split; [reflexivity |].
  exact (proj1 (@handler_invocations_accumulate example_runtime _ _ _ Hrun)).
Defined.

(** ** Calls to the dependency *)

Lemma handler_w_deps_outcome greet event w x :
  handler_w_deps greet event w = Some x →
  ∃ o h',
    greet (name_of (w_heap w) VNone event) (w_heap w) = Some (o, h')
    ∧ Some x
      = match o with
        | Ret r =>
            message_reply h'
              (w_calls w ++ [name_of (w_heap w) VNone event]) r
        | Raise e =>
            Some (Raise e,
                  World h' (w_calls w ++ [name_of (w_heap w) VNone event]))
        end.
Proof.
  intros Hrun. destruct (type_name (w_heap w) event) as [t |] eqn:Ht.
  - rewrite (handler_w_deps_unfold greet event w t Ht) in Hrun. simpl in Hrun.
    destruct (greet _ _) as [[[r | e] h'] |]; [| | done]; by eexists _, _.
  - unfold handler_w_deps, mbind, M_bind, try_except, isinstance_dict in Hrun.
    by rewrite Ht in Hrun.
Qed.

(** X5 — [handler-w-deps.py] calls the dependency once per invocation, on
    every event and whether the call returns or raises: the call trace
    grows by the one name taken from the event, so a run of [n]
    invocations makes exactly [n] calls and keeps the earlier trace as a
    prefix. *)
Theorem handler_w_deps_calls_counted greet events w w' :
  invoke_all (handler_w_deps greet) events w = Some w' →
  length (w_calls w') = (length (w_calls w) + length events)%nat
  ∧ w_calls w `prefix_of` w_calls w'
  ∧ (∀ e o wa, handler_w_deps greet e w' = Some (o, wa) →
               w_calls wa = w_calls w' ++ [name_of (w_heap w') VNone e]).
Proof.
  intros Hrun.
  assert (Hone : ∀ e w0 o wa,
            handler_w_deps greet e w0 = Some (o, wa) →
            w_calls wa = w_calls w0 ++ [name_of (w_heap w0) VNone e]).
  { intros e w0 o wa Hr.
    apply handler_w_deps_outcome in Hr as ([r | ex] & h' & _ & Heq);
      by injection Heq as -> ->. }
  split; [| split].
  - revert w Hrun. induction events as [| e events IH]; intros w Hrun; simpl in *.
    + injection Hrun as <-. lia.
    + destruct (handler_w_deps greet e w) as [[o w1] |] eqn:He; [| done].
      rewrite (IH _ Hrun), (Hone _ _ _ _ He), length_app. simpl. lia.
  - revert w Hrun. induction events as [| e events IH]; intros w Hrun; simpl in *.
    + by injection Hrun as <-.
    + destruct (handler_w_deps greet e w) as [[o w1] |] eqn:He; [| done].
      etrans; [| exact (IH _ Hrun)]. rewrite (Hone _ _ _ _ He).
      by apply prefix_app_r.
  - intros e o wa. apply Hone.
Qed.

Lemma handler_w_deps_calls_counted_witness :
  ∃ w', invoke_all (handler_w_deps greet_failing) [ada_event; VNone] ada_world
        = Some w'
        ∧ length (w_calls w') = 2%nat.
Proof.
  destruct (invoke_all (handler_w_deps greet_failing)
              [ada_event; VNone] ada_world) as [w' |] eqn:Hrun;
    [| by vm_compute in Hrun].
  exists w'. split; [reflexivity |].
  exact (proj1 (handler_w_deps_calls_counted greet_failing _ _ _ Hrun)).
Defined.

(** ** The shape of the dependency-using reply *)

(** A wire value held in a store that has one object more was already held
    in the smaller store, provided the added object is not part of it. *)
Lemma represents_without h l o j v :
  h !! l = None →
  represents (<[l := o]> h) j v →
  (∀ j', represents (<[l := o]> h) j' (VRef l) →
         (json_size j < json_size j')%nat) →
  represents h j v.
Proof.
  intros Hnew. revert v.
  induction j as [| | | | | js IH | ms IH] using json_nested_ind;
    intros v Hrep Hsz;
    inversion Hrep as [| | | | | l0 items js' Hl Hitems | l0 entries ms' Hl Hms];
    subst; try constructor.
  - assert (l0 ≠ l) as Hne.
    { intros ->. specialize (Hsz _ Hrep). lia. }
    rewrite lookup_insert_ne in Hl by done.
    apply rep_arr with items; [done |].
    apply Forall2_same_length_lookup. split; [by eapply Forall2_length |].
    intros i ji vi Hji Hvi.
    pose proof (Forall2_lookup_lr _ _ _ _ _ _ Hitems Hji Hvi) as Hrepi.
    rewrite Forall_forall in IH.
    apply (IH ji (list_elem_of_lookup_2 _ _ _ Hji)); [done |].
    intros j' Hj'. specialize (Hsz j' Hj').
    pose proof (json_size_item ji js (list_elem_of_lookup_2 _ _ _ Hji)). lia.
  - assert (l0 ≠ l) as Hne.
    { intros ->. specialize (Hsz _ Hrep). lia. }
    rewrite lookup_insert_ne in Hl by done.
    apply rep_obj with entries; [done |].
    apply Forall2_same_length_lookup. split; [by eapply Forall2_length |].
    intros i mi ei Hmi Hei.
    destruct (Forall2_lookup_lr _ _ _ _ _ _ Hms Hmi Hei) as [Hk Hrepi].
    split; [done |].
    rewrite Forall_forall in IH.
    apply (IH mi (list_elem_of_lookup_2 _ _ _ Hmi)); [done |].
    intros j' Hj'. specialize (Hsz j' Hj').
    pose proof (json_size_member mi ms (list_elem_of_lookup_2 _ _ _ Hmi)). lia.
Qed.

(** X6 — [handler-w-deps.py] puts the greeter's result in its reply as it
    is: when an invocation returns, the reply is the Python form of the
    wire mapping [{"message": j}] exactly when the greeter's result is the
    Python form of [j], so the reply has a shape the serializer accepts if
    and only if the greeter's result has one. *)
Theorem handler_w_deps_reply_shape greet event w v w' :
  handler_w_deps greet event w = Some (Ret v, w') →
  ∃ r h',
    greet (name_of (w_heap w) VNone event) (w_heap w) = Some (Ret r, h')
    ∧ (∀ j, represents (w_heap w') (JObj [("message", j)]) v
            ↔ represents h' j r)
    ∧ (accepted_shape (w_heap w') v ↔ accepted_shape h' r).
Proof.
  intros Hrun.
  apply handler_w_deps_outcome in Hrun as ([r | e] & h' & Hg & Heq);
    [| done].
  injection Heq as -> ->. exists r, h'. split; [exact Hg |]. simpl.
  assert (Hiff : ∀ j,
            represents (<[fresh (dom h') := ODict [("message", r)]]> h')
              (JObj [("message", j)]) (VRef (fresh (dom h')))
            ↔ represents h' j r).
  { intros j. split.
    - intros Hrep. pose proof Hrep as Hrep0.
      inversion Hrep as [| | | | | | l0 entries ms Hl Hms]; subst.
      rewrite lookup_insert_eq in Hl. injection Hl as <-.
      inversion Hms as [| m e ms' es' [_ Hr] Hrest]; subst. simpl in Hr.
      eapply represents_without; [apply fresh_unallocated | exact Hr |].
      intros j' Hj'. rewrite (represents_inj _ _ _ _ Hj' Hrep0). simpl. lia.
    - intros Hr.
      destruct (message_reply_returns h' [] j r Hr) as (v & w0 & [= <- <-] & Hv).
      exact Hv. }
  split; [exact Hiff |]. split.
  - intros [j Hj]. pose proof Hj as Hj0.
    inversion Hj as [| | | | | l0 items js Hl Hitems | l0 entries ms Hl Hms];
      subst; rewrite lookup_insert_eq in Hl; [done |]. injection Hl as <-.
    inversion Hms as [| [k jm] e ms' es' [Hk Hr] Hrest]; subst.
    inversion Hrest; subst. simpl in Hk. subst k.
    exists jm. by apply Hiff.
  - intros [j Hj]. exists (JObj [("message", j)]). by apply Hiff.
Qed.

Lemma handler_w_deps_reply_shape_witness :
  ∃ v w' r h',
    handler_w_deps greet_echo (VRef 1%positive) cyclic_world = Some (Ret v, w')
    ∧ greet_echo (name_of (w_heap cyclic_world) VNone (VRef 1%positive))
        (w_heap cyclic_world) = Some (Ret r, h')
    ∧ (accepted_shape (w_heap w') v ↔ accepted_shape h' r).
Proof.
  destruct (handler_w_deps greet_echo (VRef 1%positive) cyclic_world)
    as [[[v | e] w'] |] eqn:Hrun;
    [| by vm_compute in Hrun | by vm_compute in Hrun].
  destruct (handler_w_deps_reply_shape greet_echo _ _ v w' Hrun)
    as (r & h' & Hg & _ & Hshape).
  exists v, w', r, h'. split; [reflexivity |]. split; [exact Hg | exact Hshape].
Defined.

(** ** Events without a name *)

Lemma nameless_type_name h event :
  nameless h event → is_Some (type_name h event).
Proof.
  destruct event as [| b | z | f | s | l]; simpl; eauto.
  destruct (h !! l) as [[items | entries] |]; by eauto.
Qed.

Lemma nameless_name_of h fallback event :
  nameless h event → name_of h fallback event = fallback.
Proof.
  destruct event as [| b | z | f | s | l]; simpl; try done.
  destruct (h !! l) as [[items | entries] |]; try done. by intros ->.
Qed.

Section Nameless.
Context `{Runtime}.

(** X7 — the handlers cannot tell apart the events they take no name from:
    a value of any type other than dict (null, boolean, number, string,
    list) and a dict without the key ["name"] all get the reply of the
    empty mapping: [{"message": "Hello, World!"}] from [handler.py], and
    whatever [greet(None)] gives from [handler-w-deps.py]. *)
Theorem nameless_events_alike greet e1 e2 w :
  nameless (w_heap w) e1 →
  nameless (w_heap w) e2 →
  handler e1 w
  = message_reply (w_heap w) (w_calls w) (VStr "Hello, World!")
  ∧ handler e1 w = handler e2 w
  ∧ handler_w_deps greet e1 w = handler_w_deps greet e2 w
  ∧ handler_w_deps greet e1 w
    = (greeting ← call_dep greet VNone; new_dict [("message", greeting)]) w.
Proof.
  intros H1 H2.
  destruct (nameless_type_name _ _ H1) as [t1 Ht1].
  destruct (nameless_type_name _ _ H2) as [t2 Ht2].
  rewrite (handler_unfold e1 w t1 Ht1), (handler_unfold e2 w t2 Ht2).
  rewrite (handler_w_deps_unfold greet e1 w t1 Ht1),
          (handler_w_deps_unfold greet e2 w t2 Ht2).
  rewrite !(nameless_name_of _ _ _ H1), !(nameless_name_of _ _ _ H2). simpl.
  split; [done |]. split; [done |]. split; [done |].
  unfold mbind, M_bind, call_dep.
  destruct (greet VNone (w_heap w)) as [[[r | e] h'] |]; reflexivity.
Qed.

(** X8 — of a wire mapping only the member ["name"] matters: two mappings
    whose ["name"] members agree (both absent, or both present and equal)
    get the same answer from each handler (equal replies, or the same
    error of the rendering), in whatever worlds they are invoked and
    whatever their other members are. *)
Theorem answer_depends_on_name_only greet g w1 w2 e1 e2 ms1 ms2 :
  pure_dep greet g →
  represents (w_heap w1) (JObj ms1) e1 →
  represents (w_heap w2) (JObj ms2) e2 →
  json_field "name" ms1 = json_field "name" ms2 →
  (∃ a, answers (w_heap w1) (handler e1 w1) a
        ∧ answers (w_heap w2) (handler e2 w2) a)
  ∧ (∃ r, returns (handler_w_deps greet e1 w1) r
          ∧ returns (handler_w_deps greet e2 w2) r).
Proof.
  intros Hpure H1 H2 Hname. split.
  - exists (handler_reply (JObj ms1)).
    split; [by apply handler_function_of_event |].
    replace (handler_reply (JObj ms1)) with (handler_reply (JObj ms2)).
    + by apply handler_function_of_event.
    + unfold handler_reply. simpl. by rewrite Hname.
  - destruct (handler_w_deps_pure greet g Hpure w1 _ _ H1)
      as (v1 & wa & Hr1 & _ & Hv1).
    destruct (handler_w_deps_pure greet g Hpure w2 _ _ H2)
      as (v2 & wb & Hr2 & _ & Hv2).
    exists (handler_w_deps_reply g (JObj ms1)). split; [by eexists _, _ |].
    eexists _, _. split; [exact Hr2 |].
    unfold handler_w_deps_reply in *. simpl in *. by rewrite Hname.
Qed.

End Nameless.

Lemma nameless_events_alike_witness :
  nameless (w_heap nested_world) (VRef 2%positive) ∧
  nameless (w_heap nested_world) (VRef 3%positive) ∧
  @handler example_runtime (VRef 2%positive) nested_world
  = @handler example_runtime (VRef 3%positive) nested_world.
Proof.
  assert (H1 : nameless (w_heap nested_world) (VRef 2%positive)) by exact I.
  assert (H2 : nameless (w_heap nested_world) (VRef 3%positive)) by reflexivity.
  split; [exact H1 |]. split; [exact H2 |].
  exact (proj1 (proj2 (@nameless_events_alike example_runtime greet_hi
                         _ _ nested_world H1 H2))).
Defined.

Lemma answer_depends_on_name_only_witness :
  pure_dep greet_hi greet_hi_wire ∧
  represents (w_heap ada_world) (JObj [("name", JStr "Ada")]) ada_event ∧
  represents (w_heap ada_extra_world)
    (JObj [("x", JInt 1); ("name", JStr "Ada")]) ada_event ∧
  json_field "name" [("name", JStr "Ada")]
  = json_field "name" [("x", JInt 1); ("name", JStr "Ada")] ∧
  ∃ a, answers (w_heap ada_world)
         (@handler example_runtime ada_event ada_world) a
       ∧ answers (w_heap ada_extra_world)
           (@handler example_runtime ada_event ada_extra_world) a.
Proof.
  assert (Hrep : represents (w_heap ada_world)
                   (JObj [("name", JStr "Ada")]) ada_event).
  { eapply rep_obj; [reflexivity |]. repeat constructor. }
  assert (Hrep' : represents (w_heap ada_extra_world)
                    (JObj [("x", JInt 1); ("name", JStr "Ada")]) ada_event).
  { eapply rep_obj; [reflexivity |]. repeat constructor. }
  split; [exact greet_hi_pure |]. split; [exact Hrep |].
  split; [exact Hrep' |]. split; [reflexivity |].
  exact (proj1 (@answer_depends_on_name_only example_runtime greet_hi
                  greet_hi_wire ada_world ada_extra_world ada_event ada_event
                  _ _ greet_hi_pure Hrep Hrep' eq_refl)).
Defined.
